(** * nt-summary-stats: the summary-statistics kernel and its batch driver

    A shallow embedding of [src/core.cpp] (namespace [nt_summary_stats]) and
    the properties of its two entry points, [compute_summary_stats] and
    [compute_summary_stats_batch].

    - [std::vector<double>] is a [list] of numbers; [std::array<double, 9>]
      is the list of its nine elements in index order.
    - [double] is a type with the operations the kernel uses ([DoubleOps]);
      its instance [binary64] is IEEE binary64, the primitive floats of the
      kernel.  [<] on doubles is a strict weak order away from NaN only
      ([DoubleOrder]), and rounding keeps sums of non-negative numbers in
      order ([ChargeLaws]); both are proved of [binary64] from the
      specification of the primitive floats ([binary64_order],
      [binary64_charge_laws]).
    - A thrown [std::invalid_argument] is the [Throw] outcome.
    - [size_t] values are [nat]: no vector is long enough to wrap one. *)

From Stdlib Require Import String Ascii.
From Stdlib Require Import Decimal DecimalNat DecimalString.
From Stdlib Require Import ZArith.
From Stdlib Require Import PrimFloat SpecFloat FloatOps FloatAxioms.
From Stdlib Require Import List Arith Lia Bool.
From Stdlib Require Import Permutation Sorted.
Import ListNotations.

Open Scope string_scope.
Open Scope list_scope.
Open Scope nat_scope.

(** ** Exceptions *)

Inductive exception : Type :=
| invalid_argument (what : string).

Inductive outcome (A : Type) : Type :=
| Return (a : A)
| Throw (e : exception).

Arguments Return {A} a.
Arguments Throw {A} e.

Definition bind {A B : Type} (m : outcome A) (k : A -> outcome B) : outcome B :=
  match m with
  | Return a => k a
  | Throw e => Throw e
  end.

Notation "x <- m ;; k" := (bind m (fun x => k))
  (at level 61, m at next level, right associativity).

(** [std::to_string] of a [size_t]: its decimal digits. *)
Definition to_string (n : nat) : string :=
  NilEmpty.string_of_uint (Nat.to_uint n).

(** ** The arithmetic of [double] *)

Class DoubleOps (double : Type) : Type := {
  zero : double;                       (* 0.0 *)
  c100 : double;                       (* 100.0 *)
  c500 : double;                       (* 500.0 *)
  c02 : double;                        (* 0.2 *)
  c05 : double;                        (* 0.5 *)
  add : double -> double -> double;
  sub : double -> double -> double;
  mul : double -> double -> double;
  div : double -> double -> double;
  sqrt : double -> double;             (* std::sqrt *)
  ltb : double -> double -> bool       (* operator< *)
}.

(** [x <= y] read as "not [y < x]", the only comparison the kernel and the
    standard algorithms it calls ever make. *)
Definition leb {double : Type} `{DoubleOps double} (x y : double) : bool :=
  negb (ltb y x).

(** [std::isnan].  The kernel never calls it; the properties use it to
    name the inputs on which [operator<] is an order. *)
Class DoubleNaN (double : Type) : Type := {
  is_nan : double -> bool
}.

(** [operator<] with NaN set apart: it is irreflexive and transitive
    everywhere, and "neither is less" passes through a middle element
    that is a number.  Through a NaN it does not: neither [1 < NaN] nor
    [NaN < 0], yet [0 < 1]. *)
Class DoubleOrder (double : Type) `{DoubleOps double} `{DoubleNaN double}
    : Prop := {
  zero_number : is_nan zero = false;
  ltb_irrefl : forall x, ltb x x = false;
  ltb_trans : forall x y z, ltb x y = true -> ltb y z = true -> ltb x z = true;
  ltb_negtrans :
    forall x y z,
      is_nan y = false -> ltb x y = false -> ltb y z = false -> ltb x z = false
}.

(** A number that is not below zero. *)
Definition non_negative {double : Type} `{DoubleOps double} `{DoubleNaN double}
    (x : double) : bool :=
  negb (is_nan x) && negb (ltb x zero).

(** Rounding keeps non-negative charges in order: the sum of two of them is
    a number not below the first, and a positive total scaled by 0.2 is a
    number that does not exceed the total scaled by 0.5. *)
Class ChargeLaws (double : Type) `{DoubleOps double} `{DoubleNaN double}
    : Prop := {
  add_nonneg :
    forall x y,
      non_negative x = true -> non_negative y = true ->
      is_nan (add x y) = false /\ ltb (add x y) x = false;
  fraction_mono :
    forall t,
      ltb zero t = true ->
      is_nan (mul c02 t) = false /\ ltb (mul c05 t) (mul c02 t) = false
}.

(** ** The standard algorithms the kernel calls *)

Section Algorithms.

Context {double : Type} `{DoubleOps double}.

(** [v[i]]; the model reads 0.0 out of range, where C++ leaves the read
    undefined. *)
Definition subscript (v : list double) (i : nat) : double := nth i v zero.

(** [std::iota(first, last, 0)] over [n] slots. *)
Definition iota (n : nat) : list nat := seq 0 n.

(** [std::accumulate(first, last, init)]. *)
Definition accumulate (v : list double) (init : double) : double :=
  fold_left add v init.

(** [std::partial_sum]: the first output is the first input, each later
    one adds the next input to the running value. *)
Fixpoint partial_sum_from (acc : double) (v : list double) : list double :=
  match v with
  | [] => []
  | x :: r => let acc' := add acc x in acc' :: partial_sum_from acc' r
  end.

Definition partial_sum (v : list double) : list double :=
  match v with
  | [] => []
  | x :: r => x :: partial_sum_from x r
  end.

(** [std::is_sorted]: no element is less than its predecessor. *)
Fixpoint is_sorted (v : list double) : bool :=
  match v with
  | [] => true
  | x :: r =>
      match r with
      | [] => true
      | y :: _ => if ltb y x then false else is_sorted r
      end
  end.

(** [std::upper_bound(first, last, val)] as the standard libraries
    implement it: halve the range [first, first + len) until it is empty.
    [len] shrinks at every turn, so [length v] turns are enough
    ([upper_bound_loop_fuel]). *)
Fixpoint upper_bound_loop (fuel : nat) (v : list double) (val : double)
    (first len : nat) : nat :=
  match fuel with
  | 0 => first
  | S fuel' =>
      if len =? 0 then first
      else
        let half := len / 2 in
        let middle := first + half in
        if ltb val (subscript v middle)
        then upper_bound_loop fuel' v val first half
        else upper_bound_loop fuel' v val (middle + 1) (len - half - 1)
  end.

Definition upper_bound (v : list double) (val : double) : nat :=
  upper_bound_loop (length v) v val 0 (length v).

End Algorithms.

(** ** The kernel: [compute_summary_stats] *)

Section Kernel.

Context {double : Type} `{DoubleOps double}.

(** [std::sort(first, last, comp)] on a vector of indices.  The standard
    fixes its result (sorted with respect to [comp], a permutation of the
    input) and not its algorithm, so it is a parameter here. *)
Variable std_sort : (nat -> nat -> bool) -> list nat -> list nat.

Definition empty_stats : list double :=
  [zero; zero; zero; zero; zero; zero; zero; zero; zero].

(** Lines 30-55: [times_sorted] and [charges_sorted]. *)
Definition sorted_arrays (times charges : list double)
    : list double * list double :=
  let indices := iota (length times) in
  if is_sorted times then (times, charges)
  else
    let indices :=
      std_sort (fun i1 i2 => ltb (subscript times i1) (subscript times i2))
               indices in
    (map (fun idx => subscript times idx) indices,
     map (fun idx => subscript charges idx) indices).

(** Lines 57-136, on the sorted arrays. *)
Definition stats_of_sorted (times_sorted charges_sorted : list double)
    : list double :=
  let total_charge := accumulate charges_sorted zero in
  let first_pulse_time := subscript times_sorted 0 in
  let last_pulse_time := last times_sorted zero in
  let time_100ns_cutoff := add first_pulse_time c100 in
  let time_500ns_cutoff := add first_pulse_time c500 in
  let idx_100ns := upper_bound times_sorted time_100ns_cutoff in
  let idx_500ns := upper_bound times_sorted time_500ns_cutoff in
  let charge_100ns :=
    fold_left (fun acc i => add acc (subscript charges_sorted i))
              (seq 0 idx_100ns) zero in
  let charge_500ns :=
    fold_left (fun acc i => add acc (subscript charges_sorted i))
              (seq 0 idx_500ns) zero in
  let cumulative_charge := partial_sum charges_sorted in
  let charge_20_percent := mul c02 total_charge in
  let charge_50_percent := mul c05 total_charge in
  let idx_20 := upper_bound cumulative_charge charge_20_percent in
  let idx_50 := upper_bound cumulative_charge charge_50_percent in
  let n_times := length times_sorted in
  let charge_20_percent_time :=
    subscript times_sorted (Nat.min idx_20 (n_times - 1)) in
  let charge_50_percent_time :=
    subscript times_sorted (Nat.min idx_50 (n_times - 1)) in
  let '(charge_weighted_mean_time, charge_weighted_std_time) :=
    if ltb zero total_charge then
      let weighted_sum :=
        fold_left
          (fun acc i =>
             add acc (mul (subscript times_sorted i) (subscript charges_sorted i)))
          (seq 0 (length times_sorted)) zero in
      let mean := div weighted_sum total_charge in
      let weighted_variance :=
        fold_left
          (fun acc i =>
             let time_diff := sub (subscript times_sorted i) mean in
             add acc (mul (mul (subscript charges_sorted i) time_diff) time_diff))
          (seq 0 (length times_sorted)) zero in
      let weighted_variance := div weighted_variance total_charge in
      (mean, sqrt weighted_variance)
    else (zero, zero) in
  [total_charge; charge_100ns; charge_500ns; first_pulse_time;
   last_pulse_time; charge_20_percent_time; charge_50_percent_time;
   charge_weighted_mean_time; charge_weighted_std_time].

Definition length_mismatch (n m : nat) : string :=
  ("times and charges must have the same length, got "
     ++ to_string n ++ " and " ++ to_string m)%string.

Definition compute_summary_stats (times charges : list double)
    : outcome (list double) :=
  match times with
  | [] => Return empty_stats
  | _ :: _ =>
      if negb (length times =? length charges) then
        Throw (invalid_argument
                 (length_mismatch (length times) (length charges)))
      else
        let '(times_sorted, charges_sorted) := sorted_arrays times charges in
        Return (stats_of_sorted times_sorted charges_sorted)
  end.

(** ** The batch driver: [compute_summary_stats_batch] *)

Definition batch_mismatch : string :=
  "times_list and charges_list must have the same length".

(** The loop of lines 150-152 over the remaining indices [rest], with the
    rows pushed so far. *)
Fixpoint batch_loop (times_list charges_list : list (list double))
    (rest : list nat) (results : list (list double))
    : outcome (list (list double)) :=
  match rest with
  | [] => Return results
  | i :: rest' =>
      row <- compute_summary_stats (nth i times_list []) (nth i charges_list []) ;;
      batch_loop times_list charges_list rest' (results ++ [row])
  end.

Definition compute_summary_stats_batch
    (times_list charges_list : list (list double))
    : outcome (list (list double)) :=
  if negb (length times_list =? length charges_list) then
    Throw (invalid_argument batch_mismatch)
  else
    batch_loop times_list charges_list (seq 0 (length times_list)) [].

End Kernel.

Arguments sorted_arrays {double _} std_sort times charges.
Arguments compute_summary_stats {double _} std_sort times charges.
Arguments compute_summary_stats_batch {double _} std_sort times_list charges_list.
Arguments batch_loop {double _} std_sort times_list charges_list rest results.

(** ** The arithmetic and a sort to run the kernel with *)

(** IEEE binary64, the [double] of the source.  0.2 is the double nearest
    to one fifth, as the C++ literal is. *)
#[export] Instance binary64 : DoubleOps float := {|
  zero := 0%float;
  c100 := 100%float;
  c500 := 500%float;
  c02 := 0x1.999999999999ap-3%float;
  c05 := 0.5%float;
  add := PrimFloat.add;
  sub := PrimFloat.sub;
  mul := PrimFloat.mul;
  div := PrimFloat.div;
  sqrt := PrimFloat.sqrt;
  ltb := PrimFloat.ltb
|}.

#[export] Instance binary64_nan : DoubleNaN float := {|
  is_nan := PrimFloat.is_nan
|}.

(** One sort that meets the contract of [std::sort]: insertion sort. *)
Fixpoint insert (comp : nat -> nat -> bool) (x : nat) (l : list nat) : list nat :=
  match l with
  | [] => [x]
  | y :: r => if comp x y then x :: l else y :: insert comp x r
  end.

Definition insertion_sort (comp : nat -> nat -> bool) (l : list nat) : list nat :=
  fold_right (insert comp) [] l.

(** ** What the statistics are said to be *)

Section Specification.

Context {double : Type} `{DoubleOps double}.

(** A pulse: its time and its charge. *)
Definition pulse : Type := double * double.
Definition time (p : pulse) : double := fst p.
Definition charge (p : pulse) : double := snd p.

(** No later element is less than an earlier one. *)
Definition non_decreasing (v : list double) : Prop :=
  StronglySorted (fun a b => ltb b a = false) v.

Definition time_ordered (ps : list pulse) : Prop :=
  StronglySorted (fun p q => ltb (time q) (time p) = false) ps.

(** Any two times of the sequence are strictly ordered, one way or the
    other. *)
Definition unique_times (times : list double) : Prop :=
  ForallOrdPairs (fun a b => ltb a b = true \/ ltb b a = true) times.

(** The first index of [v] whose element strictly exceeds [val], by a
    scan from the left; [length v] when there is none. *)
Fixpoint first_exceeding (v : list double) (val : double) : nat :=
  match v with
  | [] => 0
  | x :: r => if ltb val x then 0 else S (first_exceeding r val)
  end.

(** The charge of the pulses whose time is at most [cutoff], summed in
    the order of [ps]. *)
Definition window_charge (ps : list pulse) (cutoff : double) : double :=
  accumulate (map charge (filter (fun p => leb (time p) cutoff) ps)) zero.

(** The time of the first pulse of [ps] at which the running charge
    exceeds [threshold]; the last pulse when none does. *)
Definition percentile_time (ps : list pulse) (threshold : double) : double :=
  subscript (map time ps)
    (Nat.min (first_exceeding (partial_sum (map charge ps)) threshold)
             (length ps - 1)).

(** The sum of [t * q] over the pulses. *)
Definition weighted_sum (ps : list pulse) : double :=
  accumulate (map (fun p => mul (time p) (charge p)) ps) zero.

(** The sum of [q * (t - mean)^2] over the pulses, the square taken as
    the kernel multiplies it out: [(q * d) * d]. *)
Definition weighted_square_sum (ps : list pulse) (mean : double) : double :=
  accumulate
    (map (fun p => mul (mul (charge p) (sub (time p) mean)) (sub (time p) mean)) ps)
    zero.

(** The pulses in the order the kernel works on them. *)
Definition sorted_pulses (std_sort : (nat -> nat -> bool) -> list nat -> list nat)
    (times charges : list double) : list pulse :=
  combine (fst (sorted_arrays std_sort times charges))
          (snd (sorted_arrays std_sort times charges)).

(** Two pulses whose times are strictly ordered, one way or the other. *)
Definition distinct_times (p q : pulse) : Prop :=
  ltb (time p) (time q) = true \/ ltb (time q) (time p) = true.

(** [result[i]]. *)
Definition element (result : list double) (i : nat) : double := nth i result zero.

End Specification.

(** No element of [v] is a NaN. *)
Definition no_nan {double : Type} `{DoubleNaN double} (v : list double) : bool :=
  forallb (fun x => negb (is_nan x)) v.

(** Every element of [v] is a number that is not below zero. *)
Definition non_negatives {double : Type} `{DoubleOps double} `{DoubleNaN double}
    (v : list double) : bool :=
  forallb non_negative v.

(** The contract of [std::sort]: for a comparison that is a strict weak
    order, the result is a permutation of the input in which no element is
    less than an earlier one. *)
Definition strict_weak_order (comp : nat -> nat -> bool) : Prop :=
  (forall a, comp a a = false) /\
  (forall a b c, comp a b = true -> comp b c = true -> comp a c = true) /\
  (forall a b c, comp a b = false -> comp b c = false -> comp a c = false).

Definition sort_contract (sort : (nat -> nat -> bool) -> list nat -> list nat) : Prop :=
  forall comp l,
    strict_weak_order comp ->
    Permutation l (sort comp l) /\
    StronglySorted (fun a b => comp b a = false) (sort comp l).

(** The kernel on sensor [i] of a batch, and the row it returns. *)
Definition sensor_outcome {double : Type} `{DoubleOps double}
    (std_sort : (nat -> nat -> bool) -> list nat -> list nat)
    (times_list charges_list : list (list double)) (i : nat)
    : outcome (list double) :=
  compute_summary_stats std_sort (nth i times_list []) (nth i charges_list []).

Definition sensor_row {double : Type} `{DoubleOps double}
    (std_sort : (nat -> nat -> bool) -> list nat -> list nat)
    (times_list charges_list : list (list double)) (i : nat)
    : list double :=
  match sensor_outcome std_sort times_list charges_list i with
  | Return r => r
  | Throw _ => []
  end.

(** A string without a space: what [std::to_string] prints of a size. *)
Fixpoint no_space (s : string) : Prop :=
  match s with
  | EmptyString => True
  | String c r => c <> " "%char /\ no_space r
  end.

(** The arithmetic [ops] with its division replaced. *)
Definition with_division {double : Type} (ops : DoubleOps double)
    (division : double -> double -> double) : DoubleOps double :=
  {| zero := zero; c100 := c100; c500 := c500; c02 := c02; c05 := c05;
     add := add; sub := sub; mul := mul; div := division; sqrt := sqrt;
     ltb := ltb |}.

(** A function that may throw, applied to the elements of a list from
    left to right; the first exception ends it. *)
Fixpoint traverse {A B : Type} (f : A -> outcome B) (l : list A)
    : outcome (list B) :=
  match l with
  | [] => Return []
  | a :: r => b <- f a ;; bs <- traverse f r ;; Return (b :: bs)
  end.

(** ** The Python bindings ([src/bindings.cpp]) *)

(** A [py::array_t<double>] as [request()] shows it: its shape and the
    doubles behind [buf.ptr]. *)
Record ndarray (double : Type) : Type := {
  shape : list nat;
  data : list double
}.

Arguments shape {double} n.
Arguments data {double} n.
Arguments Build_ndarray {double} shape data.

(** [ptr[i] = x]; a write out of range, undefined in C++, leaves the
    buffer as it is. *)
Fixpoint store {A : Type} (ptr : list A) (i : nat) (x : A) : list A :=
  match ptr, i with
  | [], _ => []
  | _ :: r, 0 => x :: r
  | y :: r, S i' => y :: store r i' x
  end.

Section Bindings.

Context {double : Type} `{DoubleOps double}.
Variable std_sort : (nat -> nat -> bool) -> list nat -> list nat.

(** [py::array_t<double>(shape)]: a fresh buffer of so many doubles, whose
    contents nothing fixes. *)
Variable allocate : nat -> list double.

(** [buf.size]: the product of the dimensions. *)
Definition buffer_size (input : ndarray double) : nat :=
  fold_right Nat.mul 1 (shape input).

Definition numpy_to_vector (input : ndarray double) : list double :=
  firstn (buffer_size input) (data input).

Definition py_compute_summary_stats (times charges : ndarray double)
    : outcome (ndarray double) :=
  let times_vec := numpy_to_vector times in
  let charges_vec := numpy_to_vector charges in
  result <- compute_summary_stats std_sort times_vec charges_vec ;;
  let ptr := allocate 9 in
  let ptr :=
    fold_left (fun ptr i => store ptr i (subscript result i)) (seq 0 9) ptr in
  Return (Build_ndarray [9] ptr).

Definition py_compute_summary_stats_batch
    (times_list charges_list : list (ndarray double))
    : outcome (ndarray double) :=
  let cpp_times_list :=
    fold_left (fun acc item => acc ++ [numpy_to_vector item]) times_list [] in
  let cpp_charges_list :=
    fold_left (fun acc item => acc ++ [numpy_to_vector item]) charges_list [] in
  results <- compute_summary_stats_batch std_sort cpp_times_list cpp_charges_list ;;
  let n_sensors := length results in
  let ptr := allocate (n_sensors * 9) in
  let ptr :=
    fold_left
      (fun ptr i =>
         fold_left
           (fun ptr j => store ptr (i * 9 + j) (subscript (nth i results []) j))
           (seq 0 9) ptr)
      (seq 0 n_sensors) ptr in
  Return (Build_ndarray [n_sensors; 9] ptr).

End Bindings.

Arguments py_compute_summary_stats {double _} std_sort allocate times charges.
Arguments py_compute_summary_stats_batch {double _} std_sort allocate
  times_list charges_list.

(** ** IEEE binary64 through its specification

    The primitive floats are specified by [SpecFloat]: [Prim2SF] maps a
    double to its sign, mantissa and exponent, and [FloatAxioms] states
    each operation through it.  The definitions below describe values of
    that specification. *)

Section Binary64Values.

Open Scope Z_scope.

(** A key on which [<] of the specification is the lexicographic order,
    for every value but NaN. *)
Definition order_key (x : spec_float) : Z * Z * Z :=
  match x with
  | S754_infinity true => (-2, 0, 0)
  | S754_finite true m e => (-1, - e, - Zpos m)
  | S754_zero _ => (0, 0, 0)
  | S754_nan => (0, 0, 0)
  | S754_finite false m e => (1, e, Zpos m)
  | S754_infinity false => (2, 0, 0)
  end.

Definition key_lt (a b : Z * Z * Z) : Prop :=
  let '(a1, a2, a3) := a in
  let '(b1, b2, b3) := b in
  a1 < b1 \/ (a1 = b1 /\ (a2 < b2 \/ (a2 = b2 /\ a3 < b3))).

Definition is_nan_spec (x : spec_float) : bool :=
  match x with S754_nan => true | _ => false end.

(** Zero, a positive number or [+inf]. *)
Definition nonneg_spec (x : spec_float) : bool :=
  match x with
  | S754_zero _ | S754_infinity false | S754_finite false _ _ => true
  | _ => false
  end.

(** What rounding makes of a mantissa and an exponent it has settled on:
    zero, the number, or [+inf] when the exponent is out of range. *)
Definition overflow_pair (m2 e2 : Z) : spec_float :=
  match m2 with
  | Z0 => S754_zero false
  | Zpos m => if e2 <=? emax - prec then S754_finite false m e2
              else S754_infinity false
  | Zneg _ => S754_nan
  end.

(** The mantissas of 0.5 (exponent -53) and of 0.2 (exponent -55). *)
Definition m05 : positive := 4503599627370496.
Definition m02 : positive := 7205759403792794.

End Binary64Values.

(** * Properties *)

#[local] Arguments Nat.div : simpl never.

(** ** Vectors without NaN *)

Section Numbers.

Context {double : Type} {ops : DoubleOps double} {nan : DoubleNaN double}
        {order : DoubleOrder double}.

Lemma no_nan_In (v : list double) (x : double) :
  no_nan v = true -> In x v -> is_nan x = false.
Proof.
  unfold no_nan. rewrite forallb_forall. intros Hv Hx.
  apply negb_true_iff. apply Hv. exact Hx.
Qed.

(** Reading a vector without NaN gives a number, also out of range, where
    the model reads 0.0. *)
Lemma no_nan_subscript (v : list double) (i : nat) :
  no_nan v = true -> is_nan (subscript v i) = false.
Proof.
  intros Hv. unfold subscript.
  destruct (Nat.lt_ge_cases i (length v)) as [Hi|Hi].
  - apply (no_nan_In v); [exact Hv|]. apply nth_In. exact Hi.
  - rewrite nth_overflow by exact Hi. apply zero_number.
Qed.

Lemma no_nan_Forall (v : list double) :
  no_nan v = true <-> Forall (fun x => is_nan x = false) v.
Proof.
  unfold no_nan. rewrite forallb_forall, Forall_forall.
  split; intros Hv x Hx; specialize (Hv x Hx).
  - apply negb_true_iff. exact Hv.
  - apply negb_true_iff. exact Hv.
Qed.

Lemma no_nan_permutation (v w : list double) :
  Permutation v w -> no_nan v = true -> no_nan w = true.
Proof.
  intros Hp. rewrite !no_nan_Forall. apply Permutation_Forall. exact Hp.
Qed.

Lemma no_nan_map_subscript (v : list double) (l : list nat) :
  no_nan v = true -> no_nan (map (fun idx => subscript v idx) l) = true.
Proof.
  intros Hv. apply no_nan_Forall. apply Forall_forall. intros x Hx.
  apply in_map_iff in Hx. destruct Hx as [i [<- _]].
  apply no_nan_subscript. exact Hv.
Qed.

Lemma non_negative_parts (x : double) :
  non_negative x = true <-> is_nan x = false /\ ltb x zero = false.
Proof.
  unfold non_negative. rewrite andb_true_iff, !negb_true_iff. reflexivity.
Qed.

Lemma non_negatives_Forall (v : list double) :
  non_negatives v = true <-> Forall (fun x => non_negative x = true) v.
Proof.
  unfold non_negatives. rewrite forallb_forall, Forall_forall. reflexivity.
Qed.


End Numbers.

(** ** Binary search *)

Section UpperBound.

Context {double : Type} `{DoubleOps double}.

Lemma upper_bound_loop_fuel (v : list double) (val : double) :
  forall f1 f2 first len,
    len <= f1 -> len <= f2 ->
    upper_bound_loop f1 v val first len = upper_bound_loop f2 v val first len.
Proof.
  induction f1 as [|f1 IH]; intros f2 first len H1 H2.
  - assert (len = 0) by lia. subst. destruct f2; reflexivity.
  - destruct f2 as [|f2].
    + assert (len = 0) by lia. subst. reflexivity.
    + simpl. destruct (len =? 0) eqn:E; [reflexivity|].
      apply Nat.eqb_neq in E.
      assert (len / 2 < len) by (apply Nat.div_lt; lia).
      destruct (ltb val (subscript v (first + len / 2)));
        apply IH; lia.
Qed.

(** The search needs no more turns than the vector is long. *)
Lemma upper_bound_fuel (v : list double) (val : double) (fuel : nat) :
  length v <= fuel ->
  upper_bound_loop fuel v val 0 (length v) = upper_bound v val.
Proof.
  intros Hf. unfold upper_bound. apply upper_bound_loop_fuel; [exact Hf|lia].
Qed.

Lemma upper_bound_loop_range (v : list double) (val : double) :
  forall fuel first len,
    first <= upper_bound_loop fuel v val first len <= first + len.
Proof.
  induction fuel as [|fuel IH]; intros first len; simpl; [lia|].
  destruct (len =? 0) eqn:E; [lia|].
  apply Nat.eqb_neq in E.
  assert (len / 2 < len) by (apply Nat.div_lt; lia).
  destruct (ltb val (subscript v (first + len / 2))).
  - specialize (IH first (len / 2)). lia.
  - specialize (IH (first + len / 2 + 1) (len - len / 2 - 1)). lia.
Qed.

Lemma upper_bound_le_length (v : list double) (val : double) :
  upper_bound v val <= length v.
Proof.
  unfold upper_bound.
  pose proof (upper_bound_loop_range v val (length v) 0 (length v)). lia.
Qed.

Lemma first_exceeding_le_length (v : list double) (val : double) :
  first_exceeding v val <= length v.
Proof.
  induction v as [|x r IH]; simpl; [lia|].
  destruct (ltb val x); lia.
Qed.

Lemma first_exceeding_before (v : list double) (val : double) :
  forall i, i < first_exceeding v val -> ltb val (subscript v i) = false.
Proof.
  unfold subscript.
  induction v as [|x r IH]; simpl; intros i Hi; [lia|].
  destruct (ltb val x) eqn:E; [lia|].
  destruct i as [|i]; [exact E|]. apply IH. lia.
Qed.

Lemma first_exceeding_at (v : list double) (val : double) :
  first_exceeding v val < length v ->
  ltb val (subscript v (first_exceeding v val)) = true.
Proof.
  unfold subscript.
  induction v as [|x r IH]; simpl; intros Hi; [lia|].
  destruct (ltb val x) eqn:E; [exact E|].
  apply IH. lia.
Qed.

Context {nan : DoubleNaN double}
        {order : DoubleOrder double}.

Lemma non_decreasing_subscript (v : list double) :
  non_decreasing v ->
  forall i j, i <= j -> j < length v ->
    ltb (subscript v j) (subscript v i) = false.
Proof.
  unfold subscript.
  induction 1 as [|x r Hr IH Hx]; intros i j Hij Hj; simpl in Hj; [lia|].
  destruct j as [|j].
  - assert (i = 0) by lia. subst. apply ltb_irrefl.
  - destruct i as [|i].
    + simpl. rewrite Forall_forall in Hx. apply Hx. apply nth_In. lia.
    + simpl. apply IH; lia.
Qed.

(** On a non-decreasing vector without NaN the halving loop keeps every
    element before [first] at most [val] and every element from
    [first + len] on above it, and so ends on the first element above
    [val]. *)
Lemma upper_bound_loop_partition (v : list double) (val : double) :
  no_nan v = true ->
  non_decreasing v ->
  forall fuel first len,
    len <= fuel ->
    first + len <= length v ->
    (forall i, i < first -> ltb val (subscript v i) = false) ->
    (forall i, first + len <= i -> i < length v -> ltb val (subscript v i) = true) ->
    let p := upper_bound_loop fuel v val first len in
    (forall i, i < p -> ltb val (subscript v i) = false) /\
    (forall i, p <= i -> i < length v -> ltb val (subscript v i) = true).
Proof.
  intros Hn Hv.
  pose proof (non_decreasing_subscript v Hv) as Hs.
  pose proof (fun i => no_nan_subscript v i Hn) as Hnum.
  induction fuel as [|fuel IH]; intros first len Hf Hlen Hlo Hhi; simpl.
  - assert (len = 0) by lia. subst. split; [exact Hlo|].
    intros i Hi. apply Hhi. lia.
  - destruct (len =? 0) eqn:E.
    + apply Nat.eqb_eq in E. subst. split; [exact Hlo|].
      intros i Hi. apply Hhi. lia.
    + apply Nat.eqb_neq in E.
      assert (Hhalf : len / 2 < len) by (apply Nat.div_lt; lia).
      destruct (ltb val (subscript v (first + len / 2))) eqn:Em.
      * apply IH; try lia; [exact Hlo|].
        intros i Hi Hi'.
        destruct (ltb val (subscript v i)) eqn:Ei; [reflexivity|].
        assert (Hc : ltb val (subscript v (first + len / 2)) = false).
        { apply ltb_negtrans with (y := subscript v i);
            [apply Hnum|exact Ei|].
          apply Hs; lia. }
        congruence.
      * apply IH; try lia.
        -- intros i Hi.
           apply ltb_negtrans with (y := subscript v (first + len / 2));
             [apply Hnum|exact Em|].
           apply Hs; lia.
        -- intros i Hi Hi'. apply Hhi; lia.
Qed.

Lemma upper_bound_first_exceeding (v : list double) (val : double) :
  no_nan v = true ->
  non_decreasing v -> upper_bound v val = first_exceeding v val.
Proof.
  intros Hn Hv. unfold upper_bound.
  destruct (upper_bound_loop_partition v val Hn Hv (length v) 0 (length v))
    as [Hlo Hhi]; try lia.
  pose proof (upper_bound_le_length v val) as Hp. unfold upper_bound in Hp.
  pose proof (first_exceeding_le_length v val) as Hk.
  set (p := upper_bound_loop (length v) v val 0 (length v)) in *.
  set (k := first_exceeding v val) in *.
  destruct (Nat.lt_trichotomy p k) as [Hlt|[Heq|Hgt]]; [|exact Heq|].
  - pose proof (first_exceeding_before v val p Hlt) as E1.
    rewrite (Hhi p) in E1; [discriminate|lia|lia].
  - assert (Hk' : k < length v) by lia.
    pose proof (first_exceeding_at v val Hk') as E1.
    fold k in E1. rewrite (Hlo k Hgt) in E1. discriminate.
Qed.

End UpperBound.

(** ** Sorting by time *)

Section Sorting.

Context {double : Type} {ops : DoubleOps double} {nan : DoubleNaN double}
        {order : DoubleOrder double}.

(** What [std::is_sorted] checks of neighbours holds of every pair when
    no element is a NaN. *)
Lemma is_sorted_non_decreasing (v : list double) :
  no_nan v = true -> is_sorted v = true -> non_decreasing v.
Proof.
  unfold non_decreasing.
  induction v as [|x r IH]; intros Hn Hs; [constructor|].
  destruct r as [|y r']; [constructor; constructor|].
  assert (Hy : is_nan y = false)
    by (apply (no_nan_In _ _ Hn); right; left; reflexivity).
  assert (Hn' : no_nan (y :: r') = true)
    by (unfold no_nan in *; simpl in Hn |- *;
        apply andb_true_iff in Hn; apply Hn).
  simpl in Hs. destruct (ltb y x) eqn:E; [discriminate|].
  specialize (IH Hn' Hs). constructor; [exact IH|].
  constructor; [exact E|].
  inversion IH as [|? ? _ Hall]; subst.
  rewrite Forall_forall in *. intros z Hz.
  apply ltb_negtrans with (y := y); [exact Hy|apply Hall; exact Hz|exact E].
Qed.

Lemma non_decreasing_is_sorted (v : list double) :
  non_decreasing v -> is_sorted v = true.
Proof.
  induction 1 as [|x r Hr IH Hx]; [reflexivity|].
  destruct r as [|y r']; [reflexivity|].
  simpl. inversion Hx; subst.
  replace (ltb y x) with false by (symmetry; assumption).
  exact IH.
Qed.

(** The comparison the kernel sorts with is a strict weak order when no
    time is a NaN: the precondition of [std::sort]. *)
Lemma time_comp_strict_weak_order (times : list double) :
  no_nan times = true ->
  strict_weak_order
    (fun i1 i2 => ltb (subscript times i1) (subscript times i2)).
Proof.
  intros Hn. repeat split; intros.
  - apply ltb_irrefl.
  - eapply ltb_trans; eassumption.
  - eapply ltb_negtrans; [apply no_nan_subscript; exact Hn| |]; eassumption.
Qed.

Lemma combine_map_indices {A B : Type} (f : nat -> A) (g : nat -> B) (l : list nat) :
  combine (map f l) (map g l) = map (fun i => (f i, g i)) l.
Proof. induction l as [|a l IH]; simpl; [|rewrite IH]; reflexivity. Qed.

Lemma combine_as_map (times charges : list double) :
  length times = length charges ->
  combine times charges =
  map (fun i => (subscript times i, subscript charges i)) (seq 0 (length times)).
Proof.
  intros Hlen.
  apply nth_ext with (d := (zero, zero)) (d' := (zero, zero)).
  - rewrite length_combine, length_map, length_seq. lia.
  - intros n Hn. rewrite length_combine in Hn.
    rewrite combine_nth by exact Hlen.
    set (f := fun i => (subscript times i, subscript charges i)).
    rewrite nth_indep with (d' := f 0)
      by (rewrite length_map, length_seq; lia).
    rewrite map_nth. rewrite seq_nth by lia. reflexivity.
Qed.

Lemma sorted_map {A : Type} (f : A -> double) (l : list A) :
  StronglySorted (fun a b => ltb (f b) (f a) = false) l ->
  non_decreasing (map f l).
Proof.
  unfold non_decreasing.
  induction 1 as [|x r Hr IH Hx]; simpl; constructor; [exact IH|].
  rewrite Forall_forall in *. intros z Hz.
  apply in_map_iff in Hz. destruct Hz as [a [<- Ha]]. apply Hx. exact Ha.
Qed.

Lemma map_fst_combine {A B : Type} (l : list A) (l' : list B) :
  length l = length l' -> map fst (combine l l') = l.
Proof.
  revert l'. induction l as [|a l IH]; intros [|b l'] Hl; simpl in *;
    try discriminate; [reflexivity|]. rewrite IH by lia. reflexivity.
Qed.

Lemma map_snd_combine {A B : Type} (l : list A) (l' : list B) :
  length l = length l' -> map snd (combine l l') = l'.
Proof.
  revert l'. induction l as [|a l IH]; intros [|b l'] Hl; simpl in *;
    try discriminate; [reflexivity|]. rewrite IH by lia. reflexivity.
Qed.

Lemma time_ordered_of_times (ps : list pulse) :
  non_decreasing (map time ps) -> time_ordered ps.
Proof.
  unfold time_ordered, non_decreasing.
  induction ps as [|p ps IH]; intros Hs; [constructor|].
  simpl in Hs. inversion Hs as [|? ? Hs' Hall]; subst.
  constructor; [apply IH; exact Hs'|].
  rewrite Forall_forall in *. intros q Hq.
  apply Hall. apply in_map. exact Hq.
Qed.

Variable std_sort : (nat -> nat -> bool) -> list nat -> list nat.
Hypothesis std_sort_contract : sort_contract std_sort.

Lemma sorted_arrays_same_length (times charges : list double) :
  length times = length charges ->
  length (fst (sorted_arrays std_sort times charges))
  = length (snd (sorted_arrays std_sort times charges)).
Proof.
  intros Hlen. unfold sorted_arrays.
  destruct (is_sorted times); simpl; [exact Hlen|].
  rewrite !length_map. reflexivity.
Qed.

Lemma sorted_times_non_decreasing (times charges : list double) :
  no_nan times = true ->
  non_decreasing (fst (sorted_arrays std_sort times charges)).
Proof.
  intros Hn. unfold sorted_arrays.
  destruct (is_sorted times) eqn:E; simpl.
  - apply is_sorted_non_decreasing; assumption.
  - apply sorted_map.
    apply (std_sort_contract _ (iota (length times))
             (time_comp_strict_weak_order times Hn)).
Qed.

Lemma sorted_times_no_nan (times charges : list double) :
  no_nan times = true ->
  no_nan (fst (sorted_arrays std_sort times charges)) = true.
Proof.
  intros Hn. unfold sorted_arrays.
  destruct (is_sorted times); simpl; [exact Hn|].
  apply no_nan_map_subscript. exact Hn.
Qed.

Lemma sorted_pulses_permutation (times charges : list double) :
  no_nan times = true ->
  length times = length charges ->
  Permutation (combine times charges) (sorted_pulses std_sort times charges).
Proof.
  intros Hn Hlen. unfold sorted_pulses, sorted_arrays.
  destruct (is_sorted times); simpl; [apply Permutation_refl|].
  rewrite combine_map_indices, (combine_as_map _ _ Hlen).
  apply Permutation_map.
  apply (std_sort_contract _ (iota (length times))
           (time_comp_strict_weak_order times Hn)).
Qed.

Lemma sorted_pulses_times (times charges : list double) :
  length times = length charges ->
  map time (sorted_pulses std_sort times charges)
  = fst (sorted_arrays std_sort times charges).
Proof.
  intros Hlen. unfold sorted_pulses.
  apply map_fst_combine. apply sorted_arrays_same_length. exact Hlen.
Qed.

Lemma sorted_pulses_charges (times charges : list double) :
  length times = length charges ->
  map charge (sorted_pulses std_sort times charges)
  = snd (sorted_arrays std_sort times charges).
Proof.
  intros Hlen. unfold sorted_pulses.
  apply map_snd_combine. apply sorted_arrays_same_length. exact Hlen.
Qed.

Lemma sorted_pulses_time_ordered (times charges : list double) :
  no_nan times = true ->
  length times = length charges ->
  time_ordered (sorted_pulses std_sort times charges).
Proof.
  intros Hn Hlen. apply time_ordered_of_times.
  rewrite sorted_pulses_times by exact Hlen.
  apply sorted_times_non_decreasing. exact Hn.
Qed.

End Sorting.

(** ** Loops over indices *)

Section Loops.

Context {double : Type} `{DoubleOps double}.

Lemma firstn_snoc {A : Type} (l : list A) (d : A) :
  forall k, k < length l -> firstn (S k) l = firstn k l ++ [nth k l d].
Proof.
  induction l as [|a l IH]; intros k Hk; simpl in Hk; [lia|].
  destruct k as [|k]; [reflexivity|].
  change (firstn (S (S k)) (a :: l)) with (a :: firstn (S k) l).
  rewrite IH by lia. reflexivity.
Qed.

(** A loop [for (i = 0; i < k; ++i) acc = f(acc, v[i])] folds [f] over
    the first [k] elements of [v]. *)
Lemma index_loop {A : Type} (f : double -> A -> double) (l : list A) (d : A) (a : double) :
  forall k, k <= length l ->
    fold_left (fun acc i => f acc (nth i l d)) (seq 0 k) a
    = fold_left f (firstn k l) a.
Proof.
  induction k as [|k IH]; intros Hk; [reflexivity|].
  rewrite seq_S, fold_left_app, IH by lia.
  rewrite (firstn_snoc l d) by lia.
  rewrite fold_left_app. reflexivity.
Qed.

Lemma fold_left_ext_in {A : Type} (f g : double -> A -> double) (l : list A) :
  (forall acc x, In x l -> f acc x = g acc x) ->
  forall a, fold_left f l a = fold_left g l a.
Proof.
  induction l as [|x l IH]; intros Hfg a; [reflexivity|].
  simpl. rewrite Hfg by (left; reflexivity).
  apply IH. intros acc y Hy. apply Hfg. right. exact Hy.
Qed.

Lemma fold_left_add_map {A : Type} (h : A -> double) (l : list A) :
  forall a, fold_left (fun acc x => add acc (h x)) l a = fold_left add (map h l) a.
Proof.
  induction l as [|x l IH]; intros a; [reflexivity|]. simpl. apply IH.
Qed.

(** The loop of lines 77-79 (and 81-83): the charge of the first [k]
    sorted pulses. *)
Lemma prefix_loop (charges_sorted : list double) (k : nat) :
  k <= length charges_sorted ->
  fold_left (fun acc i => add acc (subscript charges_sorted i)) (seq 0 k) zero
  = accumulate (firstn k charges_sorted) zero.
Proof. intros Hk. unfold subscript, accumulate. apply index_loop. exact Hk. Qed.

(** A loop over all indices that reads [times_sorted[i]] and
    [charges_sorted[i]] sums a function of the pulses. *)
Lemma pulse_loop (h : double -> double -> double) (ts cs : list double) :
  length ts = length cs ->
  fold_left (fun acc i => add acc (h (subscript ts i) (subscript cs i)))
            (seq 0 (length ts)) zero
  = accumulate (map (fun p => h (time p) (charge p)) (combine ts cs)) zero.
Proof.
  intros Hlen. unfold accumulate.
  rewrite <- fold_left_add_map.
  rewrite <- (firstn_all (combine ts cs)) at 1.
  rewrite <- (index_loop (fun acc p => add acc (h (time p) (charge p)))
                (combine ts cs) (zero, zero))
    by reflexivity.
  rewrite length_combine, <- Hlen, Nat.min_id.
  apply fold_left_ext_in. intros acc i Hi. unfold pulse.
  rewrite combine_nth by exact Hlen. reflexivity.
Qed.

Context {nan : DoubleNaN double}
        {order : DoubleOrder double}.

(** In time order and without NaN, the pulses at or before a cutoff are a
    prefix: the one the right-side search measures. *)
Lemma window_is_prefix (ps : list pulse) (cutoff : double) :
  no_nan (map time ps) = true ->
  time_ordered ps ->
  filter (fun p => leb (time p) cutoff) ps
  = firstn (first_exceeding (map time ps) cutoff) ps.
Proof.
  unfold time_ordered, leb. intros Hn.
  induction 1 as [|p ps Hps IH Hp]; [reflexivity|].
  assert (Hn' : no_nan (map time ps) = true)
    by (unfold no_nan in *; simpl in Hn; apply andb_true_iff in Hn; apply Hn).
  simpl. destruct (ltb cutoff (time p)) eqn:E; simpl.
  - rewrite Forall_forall in Hp.
    assert (Hnone : forall q, In q ps -> negb (ltb cutoff (time q)) = false).
    { intros q Hq. apply negb_false_iff.
      destruct (ltb cutoff (time q)) eqn:Eq; [reflexivity|].
      assert (Hnum : is_nan (time q) = false)
        by (apply (no_nan_In _ _ Hn'); apply in_map; exact Hq).
      rewrite (ltb_negtrans _ _ _ Hnum Eq (Hp q Hq)) in E. discriminate. }
    clear - Hnone. induction ps as [|q ps IHq]; [reflexivity|].
    simpl. rewrite (Hnone q (or_introl eq_refl)).
    apply IHq. intros x Hx. apply Hnone. right. exact Hx.
  - rewrite (IH Hn'). reflexivity.
Qed.

End Loops.

(** ** Diagnostics *)

Section Diagnostics.

Lemma string_of_uint_no_space (d : uint) : no_space (NilEmpty.string_of_uint d).
Proof. induction d; simpl; try split; try exact I; try assumption; discriminate. Qed.

Lemma to_string_inj (n m : nat) : to_string n = to_string m -> n = m.
Proof.
  unfold to_string. intros E.
  apply (f_equal NilEmpty.uint_of_string) in E.
  rewrite !NilEmpty.usu in E. injection E as E.
  apply DecimalNat.Unsigned.to_uint_inj. exact E.
Qed.

Lemma append_cancel (p a b : string) : (p ++ a = p ++ b)%string -> a = b.
Proof.
  induction p as [|c p IH]; simpl; intros E; [exact E|].
  injection E as E. apply IH. exact E.
Qed.

Lemma split_at_space (s1 s1' t t' : string) :
  no_space s1 -> no_space s1' ->
  (s1 ++ String " " t = s1' ++ String " " t')%string ->
  s1 = s1' /\ t = t'.
Proof.
  revert s1'. induction s1 as [|c s1 IH]; intros [|c' s1'] H1 H2 E;
    simpl in *.
  - injection E as E. split; [reflexivity|exact E].
  - injection E as Ec _. destruct H2 as [H2 _]. congruence.
  - injection E as Ec _. destruct H1 as [H1 _]. congruence.
  - injection E as Ec E. destruct H1 as [_ H1]. destruct H2 as [_ H2].
    destruct (IH s1' H1 H2 E) as [-> ->]. subst. split; reflexivity.
Qed.

(** The diagnostic of the kernel determines the two lengths it reports. *)
Lemma length_mismatch_inj (n m n' m' : nat) :
  length_mismatch n m = length_mismatch n' m' -> n = n' /\ m = m'.
Proof.
  unfold length_mismatch. intros E.
  apply append_cancel in E.
  apply split_at_space in E;
    [|apply string_of_uint_no_space|apply string_of_uint_no_space].
  destruct E as [E1 E2]. apply to_string_inj in E1.
  apply (append_cancel "and ") in E2. apply to_string_inj in E2.
  split; assumption.
Qed.

End Diagnostics.

(** ** The kernel *)

Section KernelFacts.

Context {double : Type} {ops : DoubleOps double}.
Variable std_sort : (nat -> nat -> bool) -> list nat -> list nat.

Lemma compute_nonempty (times charges : list double) :
  times <> [] -> length times = length charges ->
  compute_summary_stats std_sort times charges
  = Return (stats_of_sorted (fst (sorted_arrays std_sort times charges))
                            (snd (sorted_arrays std_sort times charges))).
Proof.
  intros Hne Hlen. unfold compute_summary_stats.
  destruct times as [|t times']; [contradiction|].
  rewrite Hlen, Nat.eqb_refl. simpl negb. cbv iota.
  destruct (sorted_arrays std_sort (t :: times') charges). reflexivity.
Qed.

Lemma stats_of_sorted_length (ts cs : list double) :
  length (stats_of_sorted ts cs) = 9.
Proof.
  unfold stats_of_sorted.
  destruct (ltb zero (accumulate cs zero)); reflexivity.
Qed.

Lemma compute_summary_stats_length (times charges r : list double) :
  compute_summary_stats std_sort times charges = Return r -> length r = 9.
Proof.
  unfold compute_summary_stats. destruct times as [|t times'].
  - intros E. injection E as <-. reflexivity.
  - destruct (negb _); [discriminate|].
    destruct (sorted_arrays std_sort (t :: times') charges).
    intros E. injection E as <-. apply stats_of_sorted_length.
Qed.

(** C4: with no times the kernel returns the nine zeros whatever the
    charges are, of any length: the test for emptiness comes before the
    comparison of the lengths, which is then never made. *)
Theorem empty_times_zero_vector (charges : list double) :
  compute_summary_stats std_sort [] charges
  = Return [zero; zero; zero; zero; zero; zero; zero; zero; zero]
  /\ (forall e, compute_summary_stats std_sort [] charges <> Throw e).
Proof.
  unfold compute_summary_stats, empty_stats.
  split; [reflexivity|]. intros e E. discriminate E.
Qed.

(** C5: with times that are not empty and charges of another length, the
    kernel throws [std::invalid_argument] and returns no statistics; the
    message spells both lengths, and no other pair of lengths has that
    message. *)
Theorem kernel_length_mismatch (times charges : list double) :
  times <> [] ->
  length times <> length charges ->
  compute_summary_stats std_sort times charges
  = Throw (invalid_argument
             ("times and charges must have the same length, got "
                ++ to_string (length times) ++ " and "
                ++ to_string (length charges))%string)
  /\ (forall r, compute_summary_stats std_sort times charges <> Return r)
  /\ (forall n m,
        length_mismatch n m
        = length_mismatch (length times) (length charges) ->
        n = length times /\ m = length charges).
Proof.
  intros Hne Hlen.
  assert (E : compute_summary_stats std_sort times charges
              = Throw (invalid_argument
                         (length_mismatch (length times) (length charges)))).
  { unfold compute_summary_stats. destruct times as [|t times']; [contradiction|].
    apply Nat.eqb_neq in Hlen. rewrite Hlen. reflexivity. }
  split; [exact E|]. split.
  - intros r Hr. rewrite E in Hr. discriminate.
  - intros n m. apply length_mismatch_inj.
Qed.

End KernelFacts.

Section Moments.

Context {double : Type} {ops : DoubleOps double}.
Variable std_sort : (nat -> nat -> bool) -> list nat -> list nat.

Lemma stats_total_charge (ts cs : list double) :
  element (stats_of_sorted ts cs) 0 = accumulate cs zero.
Proof.
  unfold stats_of_sorted.
  destruct (ltb zero (accumulate cs zero)); reflexivity.
Qed.

Lemma stats_positive_total (ts cs : list double) :
  length ts = length cs ->
  ltb zero (accumulate cs zero) = true ->
  let mean := div (weighted_sum (combine ts cs)) (accumulate cs zero) in
  element (stats_of_sorted ts cs) 7 = mean /\
  element (stats_of_sorted ts cs) 8
  = sqrt (div (weighted_square_sum (combine ts cs) mean) (accumulate cs zero)).
Proof.
  intros Hlen Hpos. unfold stats_of_sorted. rewrite Hpos.
  unfold element. simpl nth.
  rewrite (pulse_loop (fun t q => mul t q) ts cs Hlen).
  fold (weighted_sum (combine ts cs)).
  set (m := div (weighted_sum (combine ts cs)) (accumulate cs zero)).
  split; [reflexivity|].
  rewrite (pulse_loop (fun t q => mul (mul q (sub t m)) (sub t m)) ts cs Hlen).
  reflexivity.
Qed.

Lemma stats_no_division (ts cs : list double) (division : double -> double -> double) :
  ltb zero (accumulate cs zero) = false ->
  element (stats_of_sorted ts cs) 7 = zero /\
  element (stats_of_sorted ts cs) 8 = zero /\
  stats_of_sorted (H := with_division ops division) ts cs
  = stats_of_sorted ts cs.
Proof.
  intros Hneg.
  unfold stats_of_sorted.
  change (@ltb double (with_division ops division)) with (@ltb double ops).
  change (@zero double (with_division ops division)) with (@zero double ops).
  change (@accumulate double (with_division ops division))
    with (@accumulate double ops).
  rewrite Hneg. repeat split; reflexivity.
Qed.

Context {nan : DoubleNaN double}
        {order : DoubleOrder double}.
Hypothesis std_sort_contract : sort_contract std_sort.

(** C3: the kernel works on a sequence [ps] of the pulses which, when no
    time is a NaN, is a permutation of the input pulses in time order.
    When the total charge is positive, [result[7]] is the sum of [t * q]
    over [ps] divided by the total charge and [result[8]] is the square
    root of the sum of [q * (t - mean)^2] over [ps] divided by the total
    charge; when it is not, both are 0.0 and the result is the same
    whatever division computes: none is made. *)
Theorem weighted_moments (times charges : list double) :
  times <> [] ->
  length times = length charges ->
  exists result,
    compute_summary_stats std_sort times charges = Return result /\
    let ps := sorted_pulses std_sort times charges in
    let total_charge := element result 0 in
    (no_nan times = true ->
     Permutation (combine times charges) ps /\ time_ordered ps) /\
    total_charge = accumulate (map charge ps) zero /\
    (ltb zero total_charge = true ->
     element result 7 = div (weighted_sum ps) total_charge /\
     element result 8
     = sqrt (div (weighted_square_sum ps (element result 7)) total_charge)) /\
    (leb total_charge zero = true ->
     element result 7 = zero /\
     element result 8 = zero /\
     forall division,
       compute_summary_stats (H := with_division ops division)
         std_sort times charges
       = Return result).
Proof.
  intros Hne Hlen. eexists. split; [apply compute_nonempty; assumption|].
  cbv zeta. rewrite stats_total_charge.
  rewrite (sorted_pulses_charges std_sort times charges Hlen).
  pose proof (sorted_arrays_same_length std_sort times charges Hlen) as Hsame.
  split.
  { intros Hn.
    split; [apply sorted_pulses_permutation|apply sorted_pulses_time_ordered];
      assumption. }
  split; [reflexivity|]. split.
  - intros Hpos.
    destruct (stats_positive_total _ _ Hsame Hpos) as [E7 E8].
    unfold sorted_pulses. rewrite E8, E7. split; reflexivity.
  - unfold leb. intros Hneg. apply negb_true_iff in Hneg.
    destruct (stats_no_division
                (fst (sorted_arrays std_sort times charges))
                (snd (sorted_arrays std_sort times charges))
                (fun x y => x) Hneg) as [E7 [E8 _]].
    split; [exact E7|]. split; [exact E8|].
    intros division.
    rewrite (compute_nonempty (ops := with_division ops division))
      by assumption.
    change (@sorted_arrays double (with_division ops division))
      with (@sorted_arrays double ops).
    f_equal. apply stats_no_division. exact Hneg.
Qed.

End Moments.

(** ** Windows and percentiles *)

Section Elements.

Context {double : Type} {ops : DoubleOps double}.

Ltac by_unfolding :=
  unfold stats_of_sorted, element;
  match goal with |- context [ltb zero ?t] => destruct (ltb zero t) end;
  reflexivity.

Lemma stats_charge_100ns (ts cs : list double) :
  element (stats_of_sorted ts cs) 1
  = fold_left (fun acc i => add acc (subscript cs i))
      (seq 0 (upper_bound ts (add (subscript ts 0) c100))) zero.
Proof. by_unfolding. Qed.

Lemma stats_charge_500ns (ts cs : list double) :
  element (stats_of_sorted ts cs) 2
  = fold_left (fun acc i => add acc (subscript cs i))
      (seq 0 (upper_bound ts (add (subscript ts 0) c500))) zero.
Proof. by_unfolding. Qed.

Lemma stats_first_pulse_time (ts cs : list double) :
  element (stats_of_sorted ts cs) 3 = subscript ts 0.
Proof. by_unfolding. Qed.

Lemma stats_last_pulse_time (ts cs : list double) :
  element (stats_of_sorted ts cs) 4 = last ts zero.
Proof. by_unfolding. Qed.

Lemma stats_charge_20_percent_time (ts cs : list double) :
  element (stats_of_sorted ts cs) 5
  = subscript ts
      (Nat.min (upper_bound (partial_sum cs) (mul c02 (accumulate cs zero)))
               (length ts - 1)).
Proof. by_unfolding. Qed.

Lemma stats_charge_50_percent_time (ts cs : list double) :
  element (stats_of_sorted ts cs) 6
  = subscript ts
      (Nat.min (upper_bound (partial_sum cs) (mul c05 (accumulate cs zero)))
               (length ts - 1)).
Proof. by_unfolding. Qed.

Lemma map_time_combine (ts cs : list double) :
  length ts = length cs -> map time (combine ts cs) = ts.
Proof. exact (map_fst_combine ts cs). Qed.

Lemma map_charge_combine (ts cs : list double) :
  length ts = length cs -> map charge (combine ts cs) = cs.
Proof. exact (map_snd_combine ts cs). Qed.

Context {nan : DoubleNaN double}
        {order : DoubleOrder double}.

(** The window loop after the right-side search sums the charge of the
    pulses at or before the cutoff. *)
Lemma window_loop (ts cs : list double) (cutoff : double) :
  length ts = length cs ->
  no_nan ts = true ->
  non_decreasing ts ->
  fold_left (fun acc i => add acc (subscript cs i))
    (seq 0 (upper_bound ts cutoff)) zero
  = window_charge (combine ts cs) cutoff.
Proof.
  intros Hlen Hn Hts.
  rewrite prefix_loop
    by (rewrite <- Hlen; apply upper_bound_le_length).
  rewrite (upper_bound_first_exceeding ts cutoff Hn Hts).
  unfold window_charge.
  rewrite window_is_prefix
    by (try apply time_ordered_of_times;
        rewrite map_time_combine by exact Hlen; assumption).
  rewrite <- firstn_map, map_time_combine, map_charge_combine by exact Hlen.
  reflexivity.
Qed.

(** On a non-decreasing running charge without NaN the percentile lookup reads the
    time of the first pulse whose running charge exceeds the threshold. *)
Lemma percentile_lookup (ts cs : list double) (threshold : double) :
  length ts = length cs ->
  no_nan (partial_sum cs) = true ->
  non_decreasing (partial_sum cs) ->
  subscript ts (Nat.min (upper_bound (partial_sum cs) threshold) (length ts - 1))
  = percentile_time (combine ts cs) threshold.
Proof.
  intros Hlen Hn Hcum. unfold percentile_time.
  rewrite map_time_combine, map_charge_combine by exact Hlen.
  rewrite (upper_bound_first_exceeding _ threshold Hn Hcum).
  unfold pulse. rewrite length_combine, <- Hlen, Nat.min_id. reflexivity.
Qed.

(** The clamped index of a percentile lookup is inside the array. *)
Lemma clamped_index_in_range (ts : list double) (idx : nat) :
  ts <> [] -> Nat.min idx (length ts - 1) < length ts.
Proof.
  intros Hne. destruct ts as [|t ts']; [contradiction|]. simpl. lia.
Qed.

Lemma last_subscript (ts : list double) :
  last ts zero = subscript ts (length ts - 1).
Proof.
  unfold subscript. induction ts as [|t ts' IH]; [reflexivity|].
  destruct ts' as [|t' ts'']; [reflexivity|].
  change (last (t :: t' :: ts'') zero) with (last (t' :: ts'') zero).
  rewrite IH. simpl. rewrite Nat.sub_0_r. reflexivity.
Qed.

End Elements.

Section KernelTheorems.

Context {double : Type} {ops : DoubleOps double} {nan : DoubleNaN double}
        {order : DoubleOrder double}.
Variable std_sort : (nat -> nat -> bool) -> list nat -> list nat.
Hypothesis std_sort_contract : sort_contract std_sort.

Lemma sorted_times_permutation (times charges : list double) :
  no_nan times = true ->
  length times = length charges ->
  Permutation times (fst (sorted_arrays std_sort times charges)).
Proof.
  intros Hn Hlen.
  pose proof (sorted_pulses_permutation std_sort std_sort_contract
                times charges Hn Hlen) as Hp.
  apply (Permutation_map time) in Hp.
  rewrite map_time_combine in Hp by exact Hlen.
  rewrite sorted_pulses_times in Hp by exact Hlen. exact Hp.
Qed.

Lemma sorted_charges_permutation (times charges : list double) :
  no_nan times = true ->
  length times = length charges ->
  Permutation charges (snd (sorted_arrays std_sort times charges)).
Proof.
  intros Hn Hlen.
  pose proof (sorted_pulses_permutation std_sort std_sort_contract
                times charges Hn Hlen) as Hp.
  apply (Permutation_map charge) in Hp.
  rewrite map_charge_combine in Hp by exact Hlen.
  rewrite sorted_pulses_charges in Hp by exact Hlen. exact Hp.
Qed.

(** C2, amended: when no time is a NaN, [result[1]] is the charge, summed
    in time order, of exactly the pulses whose time is at most
    [first_pulse_time + 100], and [result[2]] the same with 500; a pulse
    at the cutoff itself is counted. *)
Theorem window_charges (times charges : list double) :
  times <> [] ->
  length times = length charges ->
  no_nan times = true ->
  exists result,
    compute_summary_stats std_sort times charges = Return result /\
    let ps := sorted_pulses std_sort times charges in
    let first_pulse_time := element result 3 in
    Permutation (combine times charges) ps /\
    time_ordered ps /\
    element result 1 = window_charge ps (add first_pulse_time c100) /\
    element result 2 = window_charge ps (add first_pulse_time c500) /\
    (forall p cutoff,
       In p ps -> time p = cutoff ->
       In p (filter (fun p => leb (time p) cutoff) ps)).
Proof.
  intros Hne Hlen Hn. eexists. split; [apply compute_nonempty; assumption|].
  cbv zeta.
  pose proof (sorted_arrays_same_length std_sort times charges Hlen) as Hsame.
  pose proof (sorted_times_non_decreasing std_sort std_sort_contract
                times charges Hn) as Hts.
  pose proof (sorted_times_no_nan std_sort times charges Hn) as Hnum.
  split; [apply sorted_pulses_permutation; assumption|].
  split; [apply sorted_pulses_time_ordered; assumption|].
  rewrite stats_charge_100ns, stats_charge_500ns, stats_first_pulse_time.
  rewrite !window_loop by assumption.
  split; [reflexivity|]. split; [reflexivity|].
  intros p cutoff Hp <-. apply filter_In. split; [exact Hp|].
  unfold leb. rewrite ltb_irrefl. reflexivity.
Qed.

(** C1, amended: when no time is a NaN and the running charge of the
    pulses in time order has no NaN and never decreases, [result[5]] is
    the time of the first pulse whose running charge strictly exceeds
    [0.2 * total_charge], the last pulse when none does, and [result[6]]
    the same with 0.5. *)
Theorem percentile_times (times charges : list double) :
  times <> [] ->
  length times = length charges ->
  no_nan times = true ->
  no_nan (partial_sum (map charge (sorted_pulses std_sort times charges)))
  = true ->
  is_sorted (partial_sum (map charge (sorted_pulses std_sort times charges)))
  = true ->
  exists result,
    compute_summary_stats std_sort times charges = Return result /\
    let ps := sorted_pulses std_sort times charges in
    let total_charge := element result 0 in
    Permutation (combine times charges) ps /\
    time_ordered ps /\
    element result 5 = percentile_time ps (mul c02 total_charge) /\
    element result 6 = percentile_time ps (mul c05 total_charge).
Proof.
  intros Hne Hlen Hn Hnum Hcum.
  eexists. split; [apply compute_nonempty; assumption|].
  cbv zeta.
  pose proof (sorted_arrays_same_length std_sort times charges Hlen) as Hsame.
  rewrite sorted_pulses_charges in Hcum, Hnum by exact Hlen.
  apply is_sorted_non_decreasing in Hcum; [|exact Hnum].
  split; [apply sorted_pulses_permutation; assumption|].
  split; [apply sorted_pulses_time_ordered; assumption|].
  rewrite stats_charge_20_percent_time, stats_charge_50_percent_time,
    stats_total_charge.
  rewrite !percentile_lookup by assumption.
  split; reflexivity.
Qed.

(** C10, amended: when no time is a NaN, the four time outputs are
    elements of the input times, the two percentile times lie between the
    first and the last pulse time, and the clamped indices they are read
    at are inside the sorted array. *)
Theorem time_outputs_in_range (times charges : list double) :
  times <> [] ->
  length times = length charges ->
  no_nan times = true ->
  exists result,
    compute_summary_stats std_sort times charges = Return result /\
    In (element result 3) times /\
    In (element result 4) times /\
    In (element result 5) times /\
    In (element result 6) times /\
    leb (element result 3) (element result 5) = true /\
    leb (element result 5) (element result 4) = true /\
    leb (element result 3) (element result 6) = true /\
    leb (element result 6) (element result 4) = true /\
    let times_sorted := fst (sorted_arrays std_sort times charges) in
    exists i j,
      i < length times_sorted /\ j < length times_sorted /\
      element result 5 = subscript times_sorted i /\
      element result 6 = subscript times_sorted j.
Proof.
  intros Hne Hlen Hnum. eexists. split; [apply compute_nonempty; assumption|].
  pose proof (sorted_times_permutation times charges Hnum Hlen) as Hperm.
  pose proof (sorted_times_non_decreasing std_sort std_sort_contract
                times charges Hnum) as Hts.
  rewrite stats_first_pulse_time, stats_last_pulse_time,
    stats_charge_20_percent_time, stats_charge_50_percent_time,
    last_subscript.
  set (ts := fst (sorted_arrays std_sort times charges)) in *.
  set (cs := snd (sorted_arrays std_sort times charges)).
  assert (Hts_ne : ts <> []).
  { intros E. rewrite E in Hperm. apply Permutation_sym, Permutation_nil in Hperm.
    contradiction. }
  assert (Hn : 0 < length ts) by (destruct ts; [contradiction|simpl; lia]).
  set (i20 := Nat.min (upper_bound (partial_sum cs) (mul c02 (accumulate cs zero)))
                      (length ts - 1)).
  set (i50 := Nat.min (upper_bound (partial_sum cs) (mul c05 (accumulate cs zero)))
                      (length ts - 1)).
  assert (H20 : i20 < length ts) by (apply clamped_index_in_range; exact Hts_ne).
  assert (H50 : i50 < length ts) by (apply clamped_index_in_range; exact Hts_ne).
  assert (Hin : forall i, i < length ts -> In (subscript ts i) times).
  { intros i Hi. apply (Permutation_in _ (Permutation_sym Hperm)).
    apply nth_In. exact Hi. }
  assert (Hle : forall i j, i <= j -> j < length ts ->
                    leb (subscript ts i) (subscript ts j) = true).
  { intros i j Hij Hj. unfold leb.
    rewrite (non_decreasing_subscript ts Hts i j Hij Hj). reflexivity. }
  repeat split; try (apply Hin; lia); try (apply Hle; lia).
  exists i20, i50. repeat split; assumption.
Qed.

End KernelTheorems.

(** ** Percentile monotonicity *)

Section Monotonicity.

Context {double : Type} {ops : DoubleOps double}
        {nan : DoubleNaN double}
        {order : DoubleOrder double} {charge_laws : ChargeLaws double}.
Variable std_sort : (nat -> nat -> bool) -> list nat -> list nat.
Hypothesis std_sort_contract : sort_contract std_sort.

Lemma first_exceeding_mono (v : list double) (low high : double) :
  is_nan low = false ->
  ltb high low = false ->
  first_exceeding v low <= first_exceeding v high.
Proof.
  intros Hn Hle. induction v as [|x r IH]; simpl; [lia|].
  destruct (ltb low x) eqn:E; [lia|].
  rewrite (ltb_negtrans _ _ _ Hn Hle E). lia.
Qed.

(** A sum of non-negative numbers is non-negative. *)
Lemma add_non_negative (x y : double) :
  non_negative x = true -> non_negative y = true ->
  non_negative (add x y) = true /\ ltb (add x y) x = false.
Proof.
  intros Hx Hy. destruct (add_nonneg x y Hx Hy) as [Hn Hl].
  apply non_negative_parts in Hx. destruct Hx as [Hxn Hx0].
  split; [|exact Hl].
  apply non_negative_parts. split; [exact Hn|].
  apply ltb_negtrans with (y := x); assumption.
Qed.

Lemma partial_sum_from_non_decreasing (v : list double) :
  non_negatives v = true ->
  forall acc,
    non_negative acc = true ->
    non_decreasing (partial_sum_from acc v) /\
    Forall (fun b => ltb b acc = false) (partial_sum_from acc v) /\
    no_nan (partial_sum_from acc v) = true.
Proof.
  unfold non_decreasing.
  induction v as [|x r IH]; intros Hv acc Hacc; simpl.
  - repeat split; constructor.
  - unfold non_negatives in Hv. simpl in Hv.
    apply andb_true_iff in Hv. destruct Hv as [Hx Hr].
    destruct (add_non_negative acc x Hacc Hx) as [Hsum Hle].
    destruct (IH Hr (add acc x) Hsum) as [Hs [Hall Hnum]].
    pose proof Hsum as Hparts. apply non_negative_parts in Hparts.
    destruct Hparts as [Hsn _].
    split; [constructor; assumption|]. split.
    + constructor; [exact Hle|].
      rewrite Forall_forall in *. intros b Hb.
      apply ltb_negtrans with (y := add acc x);
        [exact Hsn|apply Hall; exact Hb|exact Hle].
    + unfold no_nan in *. simpl. rewrite Hsn. exact Hnum.
Qed.

(** With non-negative charges the running charge never decreases and has
    no NaN. *)
Lemma partial_sum_non_decreasing (v : list double) :
  non_negatives v = true ->
  non_decreasing (partial_sum v) /\ no_nan (partial_sum v) = true.
Proof.
  intros Hv. destruct v as [|x r]; [split; [constructor|reflexivity]|].
  unfold non_negatives in Hv. simpl in Hv.
  apply andb_true_iff in Hv. destruct Hv as [Hx Hr].
  destruct (partial_sum_from_non_decreasing r Hr x Hx) as [Hs [Hall Hnum]].
  simpl. split; [constructor; assumption|].
  apply non_negative_parts in Hx. destruct Hx as [Hxn _].
  unfold no_nan in *. simpl. rewrite Hxn. exact Hnum.
Qed.

Lemma non_negatives_permutation (v w : list double) :
  Permutation v w -> non_negatives v = true -> non_negatives w = true.
Proof.
  intros Hp. rewrite !non_negatives_Forall. apply Permutation_Forall. exact Hp.
Qed.

(** With non-negative charges the running charge of the pulses in time
    order has no NaN and passes the test of [std::is_sorted]. *)
Lemma running_charge_is_sorted (times charges : list double) :
  length times = length charges ->
  no_nan times = true ->
  non_negatives charges = true ->
  no_nan (partial_sum (map charge (sorted_pulses std_sort times charges)))
  = true /\
  is_sorted (partial_sum (map charge (sorted_pulses std_sort times charges)))
  = true.
Proof.
  intros Hlen Hn Hpos.
  rewrite sorted_pulses_charges by exact Hlen.
  destruct (partial_sum_non_decreasing
              (snd (sorted_arrays std_sort times charges))) as [Hs Hnum].
  - apply (non_negatives_permutation charges); [|exact Hpos].
    apply sorted_charges_permutation; assumption.
  - split; [exact Hnum|]. apply non_decreasing_is_sorted. exact Hs.
Qed.

(** C9, amended: when no time is a NaN, with a positive total charge and
    charges that are numbers not below zero, [result[5] <= result[6]]. *)
Theorem percentile_monotonicity (times charges : list double) :
  length times = length charges ->
  no_nan times = true ->
  non_negatives charges = true ->
  exists result,
    compute_summary_stats std_sort times charges = Return result /\
    (ltb zero (element result 0) = true ->
     leb (element result 5) (element result 6) = true).
Proof.
  intros Hlen Hn Hpos.
  assert (Hcase : times = [] \/ times <> [])
    by (destruct times; [left; reflexivity|right; discriminate]).
  destruct Hcase as [->|Hne].
  { eexists. split; [reflexivity|].
    unfold element, empty_stats. simpl nth. rewrite ltb_irrefl. discriminate. }
  eexists. split; [apply compute_nonempty; assumption|].
  rewrite stats_total_charge, stats_charge_20_percent_time,
    stats_charge_50_percent_time.
  set (ts := fst (sorted_arrays std_sort times charges)).
  set (cs := snd (sorted_arrays std_sort times charges)).
  intros Htotal.
  assert (Hcs : non_negatives cs = true).
  { apply (non_negatives_permutation charges); [|exact Hpos].
    apply sorted_charges_permutation; assumption. }
  destruct (partial_sum_non_decreasing cs Hcs) as [Hcum Hnum].
  rewrite !(upper_bound_first_exceeding (partial_sum cs)) by assumption.
  destruct (fraction_mono _ Htotal) as [Hthr Hfrac].
  pose proof (first_exceeding_mono (partial_sum cs) _ _ Hthr Hfrac) as Hidx.
  assert (Hts_ne : ts <> []).
  { intros E.
    pose proof (sorted_times_permutation std_sort std_sort_contract
                  times charges Hn Hlen) as Hperm.
    fold ts in Hperm. rewrite E in Hperm.
    apply Permutation_sym, Permutation_nil in Hperm. contradiction. }
  unfold leb.
  rewrite (non_decreasing_subscript ts
             (sorted_times_non_decreasing std_sort std_sort_contract
                times charges Hn));
    [reflexivity|lia|apply clamped_index_in_range; exact Hts_ne].
Qed.

End Monotonicity.

(** ** Sort invariance *)

Section SortInvariance.

Context {double : Type} {ops : DoubleOps double} {nan : DoubleNaN double}
        {order : DoubleOrder double}.
Variable std_sort : (nat -> nat -> bool) -> list nat -> list nat.
Hypothesis std_sort_contract : sort_contract std_sort.

(** Two lists in strictly increasing order with the same elements are
    the same list. *)
Lemma strictly_sorted_unique {A : Type} (lt : A -> A -> Prop) :
  (forall a, ~ lt a a) ->
  (forall a b c, lt a b -> lt b c -> lt a c) ->
  forall l1 l2,
    StronglySorted lt l1 -> StronglySorted lt l2 ->
    Permutation l1 l2 -> l1 = l2.
Proof.
  intros Hirr Htr.
  induction l1 as [|a l1 IH]; intros l2 H1 H2 Hp.
  - apply Permutation_nil in Hp. symmetry. exact Hp.
  - destruct l2 as [|b l2];
      [apply Permutation_sym, Permutation_nil in Hp; discriminate|].
    inversion H1 as [|? ? H1' Ha]; subst.
    inversion H2 as [|? ? H2' Hb]; subst.
    rewrite Forall_forall in Ha, Hb.
    assert (Hab : a = b).
    { assert (Hina : In a (b :: l2))
        by (apply (Permutation_in _ Hp); left; reflexivity).
      assert (Hinb : In b (a :: l1))
        by (apply (Permutation_in _ (Permutation_sym Hp)); left; reflexivity).
      destruct Hina as [E|Hina]; [symmetry; exact E|].
      destruct Hinb as [E|Hinb]; [exact E|].
      exfalso. apply (Hirr a). apply Htr with b; [apply Ha|apply Hb]; assumption. }
    subst b. f_equal. apply IH; try assumption.
    apply Permutation_cons_inv with a. exact Hp.
Qed.

Lemma pairwise_permutation {A : Type} (R : A -> A -> Prop) :
  (forall a b, R a b -> R b a) ->
  forall l l', Permutation l l' -> ForallOrdPairs R l -> ForallOrdPairs R l'.
Proof.
  intros Hsym. induction 1 as [|x l l' Hp IH|x y l|l l' l'' Hp1 IH1 Hp2 IH2];
    intros HF.
  - constructor.
  - inversion HF as [|? ? Hx HF']; subst. constructor; [|apply IH; exact HF'].
    rewrite Forall_forall in *. intros z Hz. apply Hx.
    apply (Permutation_in _ (Permutation_sym Hp)). exact Hz.
  - inversion HF as [|? ? Hy HF']; subst.
    inversion HF' as [|? ? Hx HF'']; subst.
    inversion Hy as [|? ? Hyx Hy']; subst.
    constructor; [constructor; [apply Hsym; exact Hyx|exact Hx]|].
    constructor; assumption.
  - apply IH2, IH1, HF.
Qed.

Lemma unique_times_pulses (times charges : list double) :
  unique_times times ->
  ForallOrdPairs distinct_times (combine times charges).
Proof.
  unfold unique_times. intros HF. revert charges.
  induction HF as [|t times Ht HF IH]; intros charges; [constructor|].
  destruct charges as [|q charges]; [constructor|].
  simpl. constructor; [|apply IH].
  rewrite Forall_forall in *. intros [t' q'] Hin.
  apply in_combine_l in Hin. exact (Ht t' Hin).
Qed.

Lemma strictly_time_ordered (ps : list pulse) :
  time_ordered ps ->
  ForallOrdPairs distinct_times ps ->
  StronglySorted (fun p q => ltb (time p) (time q) = true) ps.
Proof.
  unfold time_ordered.
  induction 1 as [|p ps Hps IH Hp]; intros HF; [constructor|].
  inversion HF as [|? ? Hd HF']; subst.
  constructor; [apply IH; exact HF'|].
  rewrite Forall_forall in *. intros q Hq.
  destruct (Hd q Hq) as [E|E]; [exact E|].
  rewrite (Hp q Hq) in E. discriminate.
Qed.

(** With unique times and no NaN the pulses have one time order only. *)
Lemma sorted_pulses_unique (times1 charges1 times2 charges2 : list double) :
  length times1 = length charges1 ->
  length times2 = length charges2 ->
  no_nan times1 = true ->
  unique_times times1 ->
  Permutation (combine times1 charges1) (combine times2 charges2) ->
  sorted_pulses std_sort times1 charges1 = sorted_pulses std_sort times2 charges2.
Proof.
  intros Hlen1 Hlen2 Hn1 Huniq Hperm.
  assert (Hn2 : no_nan times2 = true).
  { apply (no_nan_permutation times1); [|exact Hn1].
    rewrite <- (map_time_combine times1 charges1 Hlen1).
    rewrite <- (map_time_combine times2 charges2 Hlen2).
    apply Permutation_map. exact Hperm. }
  pose proof (sorted_pulses_permutation std_sort std_sort_contract
                times1 charges1 Hn1 Hlen1) as Hp1.
  pose proof (sorted_pulses_permutation std_sort std_sort_contract
                times2 charges2 Hn2 Hlen2) as Hp2.
  pose proof (unique_times_pulses times1 charges1 Huniq) as HF.
  assert (Hsym : forall a b : pulse, distinct_times a b -> distinct_times b a)
    by (intros a b [E|E]; [right|left]; exact E).
  apply strictly_sorted_unique
    with (lt := fun p q : pulse => ltb (time p) (time q) = true).
  - intros a E. rewrite ltb_irrefl in E. discriminate.
  - intros a b c. apply ltb_trans.
  - apply strictly_time_ordered;
      [apply sorted_pulses_time_ordered; assumption|].
    apply (pairwise_permutation _ Hsym _ _ Hp1 HF).
  - apply strictly_time_ordered;
      [apply sorted_pulses_time_ordered; assumption|].
    apply (pairwise_permutation _ Hsym (combine times1 charges1)); [|exact HF].
    apply Permutation_trans with (combine times2 charges2); assumption.
  - apply Permutation_trans with (combine times1 charges1);
      [apply Permutation_sym; exact Hp1|].
    apply Permutation_trans with (combine times2 charges2); assumption.
Qed.

(** C8, amended: with times that are no NaN and strictly ordered two by
    two, any two arrangements of the same (time, charge) pairs, a permuted
    one and the time-sorted one among them, have the same result. *)
Theorem sort_invariance
    (times charges times_sorted charges_sorted : list double) :
  length times = length charges ->
  length times_sorted = length charges_sorted ->
  no_nan times = true ->
  unique_times times ->
  Permutation (combine times charges) (combine times_sorted charges_sorted) ->
  is_sorted times_sorted = true ->
  compute_summary_stats std_sort times charges
  = compute_summary_stats std_sort times_sorted charges_sorted.
Proof.
  intros Hlen1 Hlen2 Hn Huniq Hperm _.
  destruct times as [|t times'].
  - apply Permutation_nil in Hperm.
    destruct times_sorted as [|t2 ts2]; [reflexivity|].
    destruct charges_sorted; simpl in *; discriminate.
  - destruct times_sorted as [|t2 ts2].
    + destruct charges as [|q charges']; [discriminate|].
      apply Permutation_sym, Permutation_nil in Hperm. discriminate.
    + rewrite !compute_nonempty by (assumption || discriminate).
      pose proof (sorted_pulses_unique _ _ _ _ Hlen1 Hlen2 Hn Huniq Hperm) as E.
      rewrite <- !(sorted_pulses_times std_sort) by assumption.
      rewrite <- !(sorted_pulses_charges std_sort) by assumption.
      rewrite E. reflexivity.
Qed.

End SortInvariance.

(** ** The batch driver *)

Section Batch.

Context {double : Type} {ops : DoubleOps double}.
Variable std_sort : (nat -> nat -> bool) -> list nat -> list nat.

Variables times_list charges_list : list (list double).

#[local] Abbreviation outcome_of :=
  (sensor_outcome std_sort times_list charges_list).
#[local] Abbreviation row_of :=
  (sensor_row std_sort times_list charges_list).

Lemma batch_loop_step (i : nat) (rest : list nat) (results : list (list double)) :
  batch_loop std_sort times_list charges_list (i :: rest) results
  = bind (outcome_of i)
         (fun r => batch_loop std_sort times_list charges_list rest (results ++ [r])).
Proof. reflexivity. Qed.

Lemma batch_loop_returns (rest : list nat) :
  (forall i, In i rest -> exists r, outcome_of i = Return r) ->
  forall results,
    batch_loop std_sort times_list charges_list rest results
    = Return (results ++ map row_of rest).
Proof.
  induction rest as [|i rest IH]; intros Hall results.
  - simpl. rewrite app_nil_r. reflexivity.
  - destruct (Hall i (or_introl eq_refl)) as [r Hr].
    rewrite batch_loop_step, Hr. simpl bind.
    rewrite IH by (intros j Hj; apply Hall; right; exact Hj).
    simpl map. unfold sensor_row at 2. rewrite Hr.
    rewrite <- app_assoc. reflexivity.
Qed.

Lemma batch_loop_throws (before after : list nat) (i : nat) (e : exception) :
  (forall j, In j before -> exists r, outcome_of j = Return r) ->
  outcome_of i = Throw e ->
  forall results,
    batch_loop std_sort times_list charges_list (before ++ i :: after) results
    = Throw e.
Proof.
  induction before as [|j before IH]; intros Hall Hi results.
  - simpl app. rewrite batch_loop_step, Hi. reflexivity.
  - destruct (Hall j (or_introl eq_refl)) as [r Hr].
    simpl app. rewrite batch_loop_step, Hr. simpl bind.
    apply IH; [|exact Hi]. intros k Hk. apply Hall. right. exact Hk.
Qed.

(** Either every sensor below [n] is accepted or there is a first one
    that is not. *)
Lemma first_failure (n : nat) :
  (forall k, k < n -> exists r, outcome_of k = Return r) \/
  (exists j e, j < n /\ outcome_of j = Throw e /\
               forall k, k < j -> exists r, outcome_of k = Return r).
Proof.
  induction n as [|n [IH|IH]].
  - left. intros k Hk. lia.
  - destruct (outcome_of n) as [r|e] eqn:E.
    + left. intros k Hk.
      destruct (Nat.eq_dec k n) as [->|Hne]; [exists r; exact E|].
      apply IH. lia.
    + right. exists n, e. repeat split; [lia|exact E|exact IH].
  - right. destruct IH as [j [e [Hj [He Hb]]]].
    exists j, e. repeat split; [lia|exact He|exact Hb].
Qed.

Lemma seq_split (n i : nat) :
  i < n -> seq 0 n = seq 0 i ++ i :: seq (S i) (n - S i).
Proof.
  intros Hi. replace n with (i + S (n - S i)) at 1 by lia.
  rewrite seq_app. reflexivity.
Qed.

Lemma batch_equal_lengths :
  length times_list = length charges_list ->
  compute_summary_stats_batch std_sort times_list charges_list
  = batch_loop std_sort times_list charges_list (seq 0 (length times_list)) [].
Proof.
  intros Hlen. unfold compute_summary_stats_batch.
  rewrite <- Hlen, Nat.eqb_refl. reflexivity.
Qed.

Lemma batch_throws_first (i : nat) (e : exception) :
  length times_list = length charges_list ->
  i < length times_list ->
  outcome_of i = Throw e ->
  (forall j, j < i -> exists r, outcome_of j = Return r) ->
  compute_summary_stats_batch std_sort times_list charges_list = Throw e.
Proof.
  intros Hlen Hi He Hb.
  rewrite (batch_equal_lengths Hlen), (seq_split _ i Hi).
  apply batch_loop_throws; [|exact He].
  intros j Hj. apply in_seq in Hj. apply Hb. lia.
Qed.

(** The outer check comes first: with lists of different lengths the
    driver throws its own error whatever the sensors hold. *)
Lemma batch_outer_mismatch :
  length times_list <> length charges_list ->
  compute_summary_stats_batch std_sort times_list charges_list
  = Throw (invalid_argument batch_mismatch).
Proof.
  intros Hlen. unfold compute_summary_stats_batch.
  apply Nat.eqb_neq in Hlen. rewrite Hlen. reflexivity.
Qed.

(** C7: on lists of the same length [N], when the kernel accepts every
    pair the driver returns [N] rows of nine elements, row [i] the
    kernel's result on pair [i]; when the kernel throws on some pair the
    driver throws too, the error of the first such pair, and returns no
    row. *)
Theorem batch_consistency :
  length times_list = length charges_list ->
  let N := length times_list in
  let batch := compute_summary_stats_batch std_sort times_list charges_list in
  let kernel i :=
    compute_summary_stats std_sort (nth i times_list []) (nth i charges_list []) in
  ((forall i, i < N -> exists r, kernel i = Return r) ->
   exists rows,
     batch = Return rows /\
     length rows = N /\
     forall i, i < N ->
       kernel i = Return (nth i rows []) /\ length (nth i rows []) = 9) /\
  (forall i e,
     i < N -> kernel i = Throw e ->
     (forall j, j < i -> exists r, kernel j = Return r) ->
     batch = Throw e) /\
  (forall i e,
     i < N -> kernel i = Throw e ->
     exists j e', j <= i /\ kernel j = Throw e' /\ batch = Throw e').
Proof.
  intros Hlen. cbv zeta.
  change (fun i => compute_summary_stats std_sort
                     (nth i times_list []) (nth i charges_list []))
    with outcome_of.
  split; [|split].
  - intros Hall. exists (map row_of (seq 0 (length times_list))).
    split; [|split].
    + rewrite (batch_equal_lengths Hlen).
      rewrite batch_loop_returns; [reflexivity|].
      intros i Hi. apply in_seq in Hi. apply Hall. lia.
    + rewrite length_map, length_seq. reflexivity.
    + intros i Hi.
      assert (E : nth i (map row_of (seq 0 (length times_list))) [] = row_of i).
      { rewrite nth_indep with (d' := row_of 0)
          by (rewrite length_map, length_seq; exact Hi).
        rewrite map_nth, seq_nth by exact Hi. reflexivity. }
      rewrite E. destruct (Hall i Hi) as [r Hr].
      unfold sensor_row. rewrite Hr. split; [reflexivity|].
      apply (compute_summary_stats_length std_sort _ _ _ Hr).
  - intros i e Hi He Hb. apply (batch_throws_first i e); assumption.
  - intros i e Hi He.
    destruct (first_failure (S i)) as [Hok|[j [e' [Hj [He' Hb]]]]].
    + destruct (Hok i (Nat.lt_succ_diag_r i)) as [r Hr]. congruence.
    + exists j, e'. repeat split; [lia|exact He'|].
      apply (batch_throws_first j e'); try assumption. lia.
Qed.

End Batch.

(** ** Insertion sort meets the contract of [std::sort] *)

Section Instances.

Lemma insert_permutation (comp : nat -> nat -> bool) (x : nat) (l : list nat) :
  Permutation (x :: l) (insert comp x l).
Proof.
  induction l as [|y l IH]; simpl; [apply Permutation_refl|].
  destruct (comp x y); [apply Permutation_refl|].
  apply Permutation_trans with (y :: x :: l); [apply perm_swap|].
  apply perm_skip. exact IH.
Qed.

Lemma insert_sorted (comp : nat -> nat -> bool) (x : nat) (l : list nat) :
  strict_weak_order comp ->
  StronglySorted (fun a b => comp b a = false) l ->
  StronglySorted (fun a b => comp b a = false) (insert comp x l).
Proof.
  intros [Hirr [Htr Hneg]].
  induction 1 as [|y l Hl IH Hy]; simpl.
  - constructor; constructor.
  - rewrite Forall_forall in Hy. destruct (comp x y) eqn:E.
    + assert (Hyx : comp y x = false).
      { destruct (comp y x) eqn:E'; [|reflexivity].
        pose proof (Htr _ _ _ E E') as C. rewrite Hirr in C.
        discriminate. }
      constructor; [constructor; [exact Hl|]|].
      * rewrite Forall_forall. exact Hy.
      * constructor; [exact Hyx|].
        rewrite Forall_forall. intros z Hz.
        apply Hneg with y; [apply Hy; exact Hz|exact Hyx].
    + constructor; [exact IH|].
      rewrite Forall_forall. intros z Hz.
      apply (Permutation_in _ (Permutation_sym (insert_permutation comp x l))) in Hz.
      destruct Hz as [<-|Hz]; [exact E|apply Hy; exact Hz].
Qed.

Lemma insertion_sort_contract : sort_contract insertion_sort.
Proof.
  intros comp l Hswo. unfold insertion_sort.
  induction l as [|x l [Hp Hs]]; simpl.
  - split; constructor.
  - split.
    + apply Permutation_trans with (x :: fold_right (insert comp) [] l);
        [apply perm_skip; exact Hp|apply insert_permutation].
    + apply insert_sorted; assumption.
Qed.

End Instances.

(** ** IEEE binary64 meets the assumptions *)

Section Binary64.

Open Scope Z_scope.

(** *** The order

    Away from NaN, [<] of the specification is the lexicographic order of
    the keys. *)
Lemma SFltb_key (x y : spec_float) :
  is_nan_spec x = false -> is_nan_spec y = false ->
  (SFltb x y = true <-> key_lt (order_key x) (order_key y)).
Proof.
  unfold SFltb.
  destruct x as [sx|sx| |sx mx ex], y as [sy|sy| |sy my ey];
    try discriminate; intros _ _; simpl;
    try (destruct sx); try (destruct sy); simpl;
    try (split; [discriminate|lia]); try (split; [lia|discriminate]);
    try (split; [reflexivity|lia]); try (split; [lia|reflexivity]);
    try (split; [intros _; lia | reflexivity]).
  all: rewrite Pos.compare_cont_spec; simpl;
    destruct (Z.compare_spec ex ey); destruct (Pos.compare_spec mx my); simpl;
    split; try discriminate; try reflexivity; try lia.
Qed.

(** [Prim2SF] maps the NaN doubles, and only them, to the NaN of the
    specification. *)
Lemma Prim2SF_nan (x : float) :
  is_nan_spec (Prim2SF x) = PrimFloat.is_nan x.
Proof.
  unfold Prim2SF. destruct (PrimFloat.is_nan x); [reflexivity|].
  destruct (PrimFloat.is_zero x); [reflexivity|].
  destruct (PrimFloat.is_infinity x); [reflexivity|].
  destruct (Z.frexp x) as [r e].
  destruct (shr_fexp prec emax _ _ _) as [s e'].
  destruct (shr_m s); reflexivity.
Qed.

Lemma float_ltb_key (x y : float) :
  PrimFloat.is_nan x = false -> PrimFloat.is_nan y = false ->
  (PrimFloat.ltb x y = true <->
   key_lt (order_key (Prim2SF x)) (order_key (Prim2SF y))).
Proof.
  intros Hx Hy. rewrite ltb_spec. apply SFltb_key; rewrite Prim2SF_nan; assumption.
Qed.

(** A NaN is neither below nor above anything. *)
Lemma float_ltb_nan_l (x y : float) :
  PrimFloat.is_nan x = true -> PrimFloat.ltb x y = false.
Proof.
  intros Hx. rewrite ltb_spec. rewrite <- Prim2SF_nan in Hx.
  destruct (Prim2SF x); try discriminate. reflexivity.
Qed.

Lemma float_ltb_nan_r (x y : float) :
  PrimFloat.is_nan y = true -> PrimFloat.ltb x y = false.
Proof.
  intros Hy. rewrite ltb_spec. rewrite <- Prim2SF_nan in Hy.
  destruct (Prim2SF y); try discriminate. destruct (Prim2SF x); reflexivity.
Qed.

Lemma key_lt_false a b : ~ key_lt a b <-> (a = b \/ key_lt b a).
Proof.
  destruct a as [[a1 a2] a3], b as [[b1 b2] b3]. unfold key_lt. split.
  - intros H. destruct (Z.eq_dec a1 b1), (Z.eq_dec a2 b2), (Z.eq_dec a3 b3);
      subst; try (left; reflexivity); right; lia.
  - intros [E|H]; [inversion E; lia|lia].
Qed.

Lemma float_ltb_irrefl x : PrimFloat.ltb x x = false.
Proof.
  destruct (PrimFloat.is_nan x) eqn:N; [apply float_ltb_nan_l; exact N|].
  apply not_true_is_false. rewrite (float_ltb_key x x N N).
  destruct (order_key (Prim2SF x)) as [[a b] c]. unfold key_lt. lia.
Qed.

Lemma float_ltb_trans x y z :
  PrimFloat.ltb x y = true -> PrimFloat.ltb y z = true -> PrimFloat.ltb x z = true.
Proof.
  intros H1 H2.
  destruct (PrimFloat.is_nan x) eqn:Nx; [rewrite float_ltb_nan_l in H1 by exact Nx; discriminate|].
  destruct (PrimFloat.is_nan y) eqn:Ny; [rewrite float_ltb_nan_l in H2 by exact Ny; discriminate|].
  destruct (PrimFloat.is_nan z) eqn:Nz; [rewrite float_ltb_nan_r in H2 by exact Nz; discriminate|].
  rewrite float_ltb_key in * by assumption.
  destruct (order_key (Prim2SF x)) as [[a1 a2] a3],
           (order_key (Prim2SF y)) as [[b1 b2] b3],
           (order_key (Prim2SF z)) as [[c1 c2] c3].
  unfold key_lt in *. lia.
Qed.

(** "Neither is less" passes through a middle element that is a
    number. *)
Lemma float_ltb_negtrans x y z :
  PrimFloat.is_nan y = false ->
  PrimFloat.ltb x y = false -> PrimFloat.ltb y z = false -> PrimFloat.ltb x z = false.
Proof.
  intros Ny H1 H2.
  destruct (PrimFloat.is_nan x) eqn:Nx; [apply float_ltb_nan_l; exact Nx|].
  destruct (PrimFloat.is_nan z) eqn:Nz; [apply float_ltb_nan_r; exact Nz|].
  apply not_true_iff_false in H1, H2. apply not_true_iff_false.
  rewrite float_ltb_key in * by assumption.
  destruct (order_key (Prim2SF x)) as [[a1 a2] a3],
           (order_key (Prim2SF y)) as [[b1 b2] b3],
           (order_key (Prim2SF z)) as [[c1 c2] c3].
  unfold key_lt in *. lia.
Qed.

(** *** Rounding

    The number of binary digits of a mantissa. *)
Lemma digits2_pos_size (p : positive) : digits2_pos p = Pos.size p.
Proof. induction p; simpl; congruence. Qed.

Lemma digits_bounds (p : positive) :
  2 ^ (Zpos (digits2_pos p) - 1) <= Zpos p < 2 ^ Zpos (digits2_pos p).
Proof.
  rewrite digits2_pos_size.
  pose proof (Pos.size_gt p) as Hgt. pose proof (Pos.size_le p) as Hle.
  apply Pos2Z.pos_lt_pos in Hgt. apply Pos2Z.pos_le_pos in Hle.
  rewrite Pos2Z.inj_pow in Hgt, Hle.
  change (Zpos p~0) with (2 * Zpos p) in Hle.
  replace (Zpos (Pos.size p)) with (Zpos (Pos.size p) - 1 + 1) in Hle at 1 by lia.
  rewrite Z.pow_add_r in Hle by lia. change (2 ^ 1) with 2 in Hle. lia.
Qed.

Lemma digits_le (p : positive) (k : Z) :
  0 <= k -> Zpos p < 2 ^ k -> Zpos (digits2_pos p) <= k.
Proof.
  intros Hk Hp. destruct (digits_bounds p) as [Hlo _].
  destruct (Z_le_gt_dec (Zpos (digits2_pos p)) k) as [H|H]; [exact H|].
  exfalso. assert (2 ^ k <= 2 ^ (Zpos (digits2_pos p) - 1))
    by (apply Z.pow_le_mono_r; lia). lia.
Qed.

(** Shifting a mantissa right by [p] places divides it by [2^p]. *)
Lemma shr_1_m (mrs : shr_record) :
  0 <= shr_m mrs -> shr_m (shr_1 mrs) = shr_m mrs / 2 /\ 0 <= shr_m (shr_1 mrs).
Proof.
  destruct mrs as [m r s]. simpl. intros Hm.
  rewrite <- Z.div2_div.
  destruct m as [|[p|p|]|p]; simpl; try lia.
Qed.

Lemma shr_iter_m (p : positive) :
  forall mrs, 0 <= shr_m mrs ->
    shr_m (iter_pos shr_1 p mrs) = shr_m mrs / 2 ^ Zpos p /\
    0 <= shr_m (iter_pos shr_1 p mrs).
Proof.
  induction p as [p IH|p IH|]; intros mrs Hm; simpl iter_pos.
  - destruct (shr_1_m mrs Hm) as [E1 P1].
    destruct (IH _ P1) as [E2 P2]. destruct (IH _ P2) as [E3 P3].
    split; [|exact P3]. rewrite E3, E2, E1.
    rewrite !Z.div_div by (try apply Z.pow_pos_nonneg; lia).
    f_equal. change 2 with (2 ^ 1) at 1.
    rewrite <- !Z.pow_add_r by lia. f_equal. lia.
  - destruct (IH _ Hm) as [E2 P2]. destruct (IH _ P2) as [E3 P3].
    split; [|exact P3]. rewrite E3, E2.
    rewrite !Z.div_div by (try apply Z.pow_pos_nonneg; lia).
    f_equal. rewrite <- Z.pow_add_r by lia. f_equal. lia.
  - destruct (shr_1_m mrs Hm) as [E1 P1]. split; [|exact P1].
    rewrite E1. reflexivity.
Qed.

(** The exponent binary64 gives a number of magnitude [2^e]: 53 digits
    of precision, and no exponent below -1074. *)
Lemma fexp_eq (e : Z) : fexp prec emax e = Z.max (e - 53) (-1074).
Proof. reflexivity. Qed.

Lemma shr_fexp_small (m E : Z) :
  0 <= m < 2 ^ 53 -> -1074 <= E ->
  shr_fexp prec emax m E loc_Exact = (Build_shr_record m false false, E).
Proof.
  intros Hm HE. unfold shr_fexp, shr. rewrite fexp_eq.
  assert (Hd : Zdigits2 m <= 53).
  { destruct m as [|p|p]; simpl; try lia.
    apply digits_le; lia. }
  simpl shr_record_of_loc.
  destruct (Z.max (Zdigits2 m + E - 53) (-1074) - E) eqn:En; try reflexivity.
  lia.
Qed.

Lemma shr_fexp_carry (E : Z) :
  -1074 <= E ->
  shr_fexp prec emax (2 ^ 53) E loc_Exact
  = (Build_shr_record (2 ^ 52) false false, E + 1).
Proof.
  intros HE. unfold shr_fexp. rewrite fexp_eq.
  change (Zdigits2 (2 ^ 53)) with 54.
  replace (Z.max (54 + E - 53) (-1074) - E) with 1 by lia.
  reflexivity.
Qed.

(** The rounding of a positive number [M * 2^e]. *)
Lemma round_positive (M : positive) (e : Z) :
  let d := Zpos (digits2_pos M) in
  let E := Z.max e (fexp prec emax (d + e)) in
  let q := Zpos M / 2 ^ (E - e) in
  exists m'',
    q <= m'' <= q + 1 /\ q < 2 ^ 53 /\
    binary_round_aux prec emax false (Zpos M) e loc_Exact
    = if m'' =? 2 ^ 53 then overflow_pair (2 ^ 52) (E + 1)
      else overflow_pair m'' E.
Proof.
  cbv zeta. rewrite fexp_eq.
  set (d := Zpos (digits2_pos M)).
  destruct (digits_bounds M) as [Hlo Hhi]. fold d in Hlo, Hhi.
  assert (Hd : 1 <= d) by (unfold d; lia).
  unfold binary_round_aux, shr_fexp at 1, shr. rewrite fexp_eq.
  simpl Zdigits2. fold d. simpl shr_record_of_loc.
  destruct (Z.max (d + e - 53) (-1074) - e) as [|p|p] eqn:En.
  - (* no first shift *)
    assert (HE : Z.max e (Z.max (d + e - 53) (-1074)) = e) by lia.
    rewrite HE, Z.sub_diag, Z.pow_0_r, Z.div_1_r.
    assert (HM : Zpos M < 2 ^ 53).
    { apply Z.lt_le_trans with (2 ^ d); [exact Hhi|].
      apply Z.pow_le_mono_r; lia. }
    exists (Zpos M). split; [lia|]. split; [exact HM|].
    simpl loc_of_shr_record. simpl round_nearest_even. simpl shr_m.
    rewrite shr_fexp_small by lia. simpl shr_m.
    replace (Zpos M =? 2 ^ 53) with false by (symmetry; apply Z.eqb_neq; lia).
    reflexivity.
  - (* first shift by p *)
    assert (HE : Z.max e (Z.max (d + e - 53) (-1074)) = e + Zpos p) by lia.
    rewrite HE. replace (e + Zpos p - e) with (Zpos p) by lia.
    destruct (shr_iter_m p (Build_shr_record (Zpos M) false false))
      as [Eq Pq]; [simpl; lia|]. simpl shr_m in Eq at 2.
    set (mrs := iter_pos shr_1 p (Build_shr_record (Zpos M) false false)) in *.
    set (q := Zpos M / 2 ^ Zpos p) in *.
    assert (Hq : q < 2 ^ 53).
    { unfold q. apply Z.div_lt_upper_bound; [apply Z.pow_pos_nonneg; lia|].
      rewrite <- Z.pow_add_r by lia.
      apply Z.lt_le_trans with (2 ^ d); [exact Hhi|].
      apply Z.pow_le_mono_r; lia. }
    set (m'' := round_nearest_even (shr_m mrs) (loc_of_shr_record mrs)).
    assert (Hm : q <= m'' <= q + 1).
    { unfold m''. rewrite Eq.
      destruct (loc_of_shr_record mrs) as [|[| |]]; simpl;
        try destruct (Z.even q); lia. }
    exists m''. split; [exact Hm|]. split; [exact Hq|].
    destruct (Z.eqb_spec m'' (2 ^ 53)) as [E53|N53].
    + rewrite E53, shr_fexp_carry by lia. reflexivity.
    + rewrite shr_fexp_small by lia. reflexivity.
  - (* no first shift *)
    assert (HE : Z.max e (Z.max (d + e - 53) (-1074)) = e) by lia.
    rewrite HE, Z.sub_diag, Z.pow_0_r, Z.div_1_r.
    assert (HM : Zpos M < 2 ^ 53).
    { apply Z.lt_le_trans with (2 ^ d); [exact Hhi|].
      apply Z.pow_le_mono_r; lia. }
    exists (Zpos M). split; [lia|]. split; [exact HM|].
    simpl loc_of_shr_record. simpl round_nearest_even. simpl shr_m.
    rewrite shr_fexp_small by lia. simpl shr_m.
    replace (Zpos M =? 2 ^ 53) with false by (symmetry; apply Z.eqb_neq; lia).
    reflexivity.
Qed.

(** The mantissa and exponent of a double are canonical and in range. *)
Lemma valid_finite (s : bool) (m : positive) (e : Z) :
  valid_binary (S754_finite s m e) = true ->
  Z.max (Zpos (digits2_pos m) + e - 53) (-1074) = e /\ e <= 971.
Proof.
  unfold SpecFloat.valid_binary, bounded, canonical_mantissa. rewrite fexp_eq.
  intros H. apply andb_prop in H. destruct H as [H1 H2].
  apply Z.eqb_eq in H1. apply Z.leb_le in H2.
  change (emax - prec) with 971 in H2. split; assumption.
Qed.

Lemma overflow_pair_nonneg (m e : Z) :
  0 <= m -> nonneg_spec (overflow_pair m e) = true.
Proof.
  intros Hm. unfold overflow_pair. destruct m as [|p|p]; [reflexivity| |lia].
  destruct (e <=? emax - prec); reflexivity.
Qed.

(** Two rounded results compare as their exponents and mantissas do. *)
Lemma overflow_pair_not_lt (m1 e1 m2 e2 : Z) :
  0 < m1 -> 0 <= m2 ->
  e2 < e1 \/ (e2 = e1 /\ m2 <= m1) ->
  SFltb (overflow_pair m1 e1) (overflow_pair m2 e2) = false.
Proof.
  intros H1 H2 Hle. unfold overflow_pair.
  destruct m1 as [|p1|p1]; try lia. destruct m2 as [|p2|p2]; try lia.
  - destruct (e1 <=? emax - prec); reflexivity.
  - destruct (Z.leb_spec e1 (emax - prec)) as [L1|L1];
      destruct (Z.leb_spec e2 (emax - prec)) as [L2|L2];
      try reflexivity; [|lia].
    unfold SFltb, SFcompare. rewrite Pos.compare_cont_spec. simpl.
    destruct (Z.compare_spec e1 e2); try reflexivity; try lia.
    destruct (Pos.compare_spec p1 p2); try reflexivity. lia.
Qed.

Lemma finite_as_pair (m : positive) (e : Z) :
  e <= 971 -> S754_finite false m e = overflow_pair (Zpos m) e.
Proof.
  intros He. unfold overflow_pair.
  replace (e <=? emax - prec) with true
    by (symmetry; apply Z.leb_le; change (emax - prec) with 971; exact He).
  reflexivity.
Qed.

(** Aligning two mantissas on the smaller exponent, as addition does. *)
Lemma iter_xO (d m : positive) : Zpos (Pos.iter xO m d) = Zpos m * 2 ^ Zpos d.
Proof.
  induction d as [|d IH] using Pos.peano_ind.
  - simpl. lia.
  - rewrite Pos.iter_succ, Pos2Z.inj_xO, IH, Pos2Z.inj_succ, Z.pow_succ_r by lia.
    ring.
Qed.

Lemma shl_align_fst (m : positive) (e e' : Z) :
  e' <= e -> Zpos (fst (shl_align m e e')) = Zpos m * 2 ^ (e - e').
Proof.
  intros He. unfold shl_align.
  destruct (e' - e) as [|d|d] eqn:Ed; simpl fst.
  - replace (e - e') with 0 by lia. lia.
  - lia.
  - rewrite iter_xO. f_equal. f_equal. lia.
Qed.

Lemma shl_align_same (m : positive) (e e' : Z) :
  e <= e' -> shl_align m e e' = (m, e).
Proof.
  intros He. unfold shl_align. destruct (e' - e) eqn:Ed; try reflexivity. lia.
Qed.

(** Adding a non-negative number to a non-negative number gives a number
    that is not below the first. *)
Lemma SFadd_nonneg (X Y : spec_float) :
  valid_binary X = true -> valid_binary Y = true ->
  nonneg_spec X = true -> nonneg_spec Y = true ->
  nonneg_spec (SF64add X Y) = true /\ SFltb (SF64add X Y) X = false.
Proof.
  intros VX VY NX NY. unfold SF64add.
  destruct X as [sx|[|]| |[|] mx ex]; try discriminate;
    destruct Y as [sy|[|]| |[|] my ey]; try discriminate.
  - destruct sx, sy; split; reflexivity.
  - split; reflexivity.
  - split; reflexivity.
  - split; reflexivity.
  - split; reflexivity.
  - split; reflexivity.
  - simpl. split; [reflexivity|]. unfold SFltb, SFcompare.
    rewrite Pos.compare_cont_spec. simpl.
    rewrite Z.compare_refl, Pos.compare_refl. reflexivity.
  - split; reflexivity.
  - (* two positive finite numbers *)
    destruct (valid_finite _ _ _ VX) as [CX BX].
    destruct (valid_finite _ _ _ VY) as [CY BY].
    destruct (digits_bounds mx) as [Lx Hx]. destruct (digits_bounds my) as [Ly Hy].
    unfold SFadd. cbv zeta. unfold cond_Zopp.
    set (ez := Z.min ex ey).
    pose proof (shl_align_fst mx ex ez ltac:(unfold ez; lia)) as Ea.
    pose proof (shl_align_fst my ey ez ltac:(unfold ez; lia)) as Eb.
    set (a := fst (shl_align mx ex ez)) in *.
    set (b := fst (shl_align my ey ez)) in *.
    change (Zpos a + Zpos b) with (Zpos (a + b)).
    unfold binary_normalize, binary_round.
    set (M := (a + b)%positive).
    assert (HM : Zpos mx * 2 ^ (ex - ez) <= Zpos M) by (unfold M; lia).
    destruct (digits_bounds M) as [LM HM'].
    set (d := Zpos (digits2_pos M)) in *.
    set (dx := Zpos (digits2_pos mx)) in *.
    assert (Hd : dx + ex <= d + ez).
    { destruct (Z_le_gt_dec (dx + ex) (d + ez)) as [H|H]; [exact H|]. exfalso.
      assert (2 ^ d <= 2 ^ (dx - 1 + (ex - ez)))
        by (apply Z.pow_le_mono_r; unfold ez in *; lia).
      rewrite Z.pow_add_r in H0 by (unfold dx, ez; lia).
      assert (2 ^ (dx - 1) * 2 ^ (ex - ez) <= Zpos mx * 2 ^ (ex - ez)).
      { apply Z.mul_le_mono_nonneg_r; [apply Z.pow_nonneg|]; lia. }
      lia. }
    rewrite fexp_eq. fold d.
    rewrite shl_align_same by (unfold ez in *; lia).
    destruct (round_positive M ez) as [m'' [Hm [Hq Hr]]].
    rewrite Hr. clear Hr. rewrite fexp_eq in *. fold d in Hm, Hq |- *.
    set (E := Z.max ez (Z.max (d + ez - 53) (-1074))) in *.
    set (q := Zpos M / 2 ^ (E - ez)) in *.
    assert (HE : ex <= E) by (unfold E, ez in *; lia).
    assert (Hq1 : 1 <= q).
    { unfold q. apply Z.div_le_lower_bound; [apply Z.pow_pos_nonneg; unfold E; lia|].
      rewrite Z.mul_1_r. apply Z.le_trans with (2 ^ (d - 1)); [|exact LM].
      apply Z.pow_le_mono_r; [lia|]. unfold E, ez, d in *. lia. }
    rewrite (finite_as_pair mx ex BX).
    destruct (m'' =? 2 ^ 53).
    + split; [apply overflow_pair_nonneg; lia|].
      apply overflow_pair_not_lt; lia.
    + split; [apply overflow_pair_nonneg; lia|].
      apply overflow_pair_not_lt; try lia.
      destruct (Z.eq_dec ex E) as [EE|NE]; [|left; lia].
      right. split; [exact EE|].
      apply Z.le_trans with q; [|lia].
      unfold q. rewrite <- EE.
      apply Z.div_le_lower_bound; [apply Z.pow_pos_nonneg; unfold ez; lia|].
      lia.
Qed.

(** The constants 0.5 and 0.2 of the kernel. *)
Lemma Prim2SF_half : Prim2SF 0.5%float = S754_finite false m05 (-53).
Proof. vm_compute. reflexivity. Qed.

Lemma Prim2SF_fifth :
  Prim2SF 0x1.999999999999ap-3%float = S754_finite false m02 (-55).
Proof. vm_compute. reflexivity. Qed.

Lemma digits_unique (p : positive) (k : Z) :
  2 ^ (k - 1) <= Zpos p < 2 ^ k -> Zpos (digits2_pos p) = k.
Proof.
  intros [Hlo Hhi]. destruct (digits_bounds p) as [Dlo Dhi].
  set (d := Zpos (digits2_pos p)) in *.
  assert (0 < d) by (unfold d; lia).
  destruct (Z.lt_trichotomy d k) as [H1|[H1|H1]]; [|exact H1|]; exfalso.
  - assert (2 ^ d <= 2 ^ (k - 1)) by (apply Z.pow_le_mono_r; lia). lia.
  - destruct (Z_le_gt_dec 0 k) as [Hk|Hk].
    + assert (2 ^ k <= 2 ^ (d - 1)) by (apply Z.pow_le_mono_r; lia). lia.
    + rewrite (Z.pow_neg_r 2 k) in Hhi by lia. lia.
Qed.

(** A positive number times 0.2 is a number that does not exceed its
    product with 0.5, both rounded. *)
Lemma SFmul_fractions (T : spec_float) :
  valid_binary T = true ->
  SFltb (S754_zero false) T = true ->
  nonneg_spec (SF64mul (S754_finite false m02 (-55)) T) = true /\
  SFltb (SF64mul (S754_finite false m05 (-53)) T)
        (SF64mul (S754_finite false m02 (-55)) T) = false.
Proof.
  intros VT PT. unfold SF64mul.
  destruct T as [s|[|]| |[|] mt et]; try discriminate.
  - split; reflexivity.
  - destruct (valid_finite _ _ _ VT) as [CT BT].
    destruct (digits_bounds mt) as [Lt Ht].
    set (dt := Zpos (digits2_pos mt)) in *.
    assert (Hdt : 1 <= dt) by (unfold dt; lia).
    unfold SFmul. simpl xorb.
    destruct (Z_le_gt_dec 4 (Zpos mt)) as [Big|Small].
    2:{ (* the three smallest subnormals *)
      assert (dt <= 2).
      { unfold dt. apply digits_le; [lia|]. change (2 ^ 2) with 4. lia. }
      assert (et = -1074) by lia. subst et.
      assert (Hm : mt = 1%positive \/ mt = 2%positive \/ mt = 3%positive) by lia.
      destruct Hm as [->|[->| ->]]; vm_compute; split; reflexivity. }
    destruct (round_positive (m05 * mt) (-53 + et)) as [mA [HmA [HqA HrA]]].
    destruct (round_positive (m02 * mt) (-55 + et)) as [mB [HmB [HqB HrB]]].
    rewrite HrA, HrB. clear HrA HrB.
    change (fexp prec emax) with (fun e => Z.max (e - 53) (-1074)) in *.
    cbv beta in *.
    assert (DA : Zpos (digits2_pos (m05 * mt)) = dt + 52).
    { apply digits_unique. rewrite Pos2Z.inj_mul. change (Zpos m05) with (2 ^ 52).
      replace (dt + 52 - 1) with (52 + (dt - 1)) by lia.
      replace (dt + 52) with (52 + dt) by lia.
      rewrite !Z.pow_add_r by lia. nia. }
    assert (DB : dt + 52 <= Zpos (digits2_pos (m02 * mt)) <= dt + 53).
    { destruct (digits_bounds (m02 * mt)) as [LB HB].
      set (dB := Zpos (digits2_pos (m02 * mt))) in *.
      rewrite Pos2Z.inj_mul in LB, HB.
      assert (H52 : 2 ^ 52 <= Zpos m02 < 2 ^ 53) by (vm_compute; split; [discriminate|reflexivity]).
      split.
      - destruct (Z_le_gt_dec (dt + 52) dB) as [H|H]; [exact H|]. exfalso.
        assert (2 ^ dB <= 2 ^ (52 + (dt - 1))) by (apply Z.pow_le_mono_r; unfold dB; lia).
        rewrite Z.pow_add_r in H0 by lia. nia.
      - destruct (Z_le_gt_dec dB (dt + 53)) as [H|H]; [exact H|]. exfalso.
        assert (2 ^ (53 + dt) <= 2 ^ (dB - 1)) by (apply Z.pow_le_mono_r; lia).
        rewrite Z.pow_add_r in H0 by lia. nia. }
    rewrite DA in *. set (dB := Zpos (digits2_pos (m02 * mt))) in *.
    rewrite Pos2Z.inj_mul in *.
    change (Zpos m05) with (2 ^ 52) in *.
    assert (H02 : 2 ^ 52 <= Zpos m02 < 2 ^ 53)
      by (vm_compute; split; [discriminate|reflexivity]).
    set (EA := Z.max (-53 + et) (Z.max (dt + 52 + (-53 + et) - 53) (-1074))) in *.
    set (EB := Z.max (-55 + et) (Z.max (dB + (-55 + et) - 53) (-1074))) in *.
    set (qA := 2 ^ 52 * Zpos mt / 2 ^ (EA - (-53 + et))) in *.
    set (qB := Zpos m02 * Zpos mt / 2 ^ (EB - (-55 + et))) in *.
    assert (HqB0 : 0 <= qB)
      by (unfold qB; apply Z.div_pos;
          [lia|apply Z.pow_pos_nonneg; unfold EB; lia]).
    destruct (Z_le_gt_dec (-1074) (dt + et - 55)) as [Normal|Sub].
    + (* the product by 0.5 is a normal number *)
      assert (HEA : EA = dt + et - 54) by (unfold EA; lia).
      assert (HEB : EB <= EA - 1) by (unfold EB; lia).
      assert (HqA1 : 2 ^ 52 <= qA).
      { unfold qA. rewrite HEA. replace (dt + et - 54 - (-53 + et)) with (dt - 1) by lia.
        apply Z.div_le_lower_bound; [apply Z.pow_pos_nonneg; lia|].
        rewrite Z.mul_comm. apply Z.mul_le_mono_nonneg_l; [lia|exact Lt]. }
      clearbody qA qB EA EB.
      change (2 ^ 52) with 4503599627370496 in *.
      change (2 ^ 53) with 9007199254740992 in *.
      destruct (Z.eqb_spec mA 9007199254740992);
        destruct (Z.eqb_spec mB 9007199254740992);
        (split; [apply overflow_pair_nonneg; lia|]);
        apply overflow_pair_not_lt; lia.
    + (* both products are rounded at the least exponent *)
      assert (HEA : EA = -1074) by (unfold EA; lia).
      assert (HEB : EB = -1074) by (unfold EB; lia).
      assert (Hn : (et = -1074) \/ (et = -1073 /\ dt = 53)) by lia.
      assert (Hmt : Zpos mt < 2 ^ 53)
        by (apply Z.lt_le_trans with (2 ^ dt);
            [exact Ht|apply Z.pow_le_mono_r; lia]).
      assert (HB : qB + 1 <= qA /\ 1 <= qA /\ qB + 1 < 2 ^ 53).
      { destruct Hn as [->|[-> Hdt53]].
        - assert (EqA : qA = Zpos mt / 2).
          { unfold qA. rewrite HEA.
            replace (-1074 - (-53 + -1074)) with 53 by lia.
            change (2 ^ 53) with (2 ^ 52 * 2).
            apply Z.div_mul_cancel_l; lia. }
          assert (LeB : qB <= Zpos mt / 4).
          { unfold qB. rewrite HEB.
            replace (-1074 - (-55 + -1074)) with 55 by lia.
            apply Z.le_trans with (2 ^ 53 * Zpos mt / 2 ^ 55).
            - apply Z.div_le_mono; [reflexivity|]. nia.
            - change (2 ^ 55) with (2 ^ 53 * 4).
              rewrite Z.div_mul_cancel_l by lia. lia. }
          pose proof (Z.div_mod (Zpos mt) 4 ltac:(lia)).
          pose proof (Z.mod_pos_bound (Zpos mt) 4 ltac:(lia)).
          pose proof (Z.div_mod (Zpos mt) 2 ltac:(lia)).
          pose proof (Z.mod_pos_bound (Zpos mt) 2 ltac:(lia)).
          change (2 ^ 53) with 9007199254740992 in *. lia.
        - assert (EqA : qA = Zpos mt).
          { unfold qA. rewrite HEA.
            replace (-1074 - (-53 + -1073)) with 52 by lia.
            rewrite Z.mul_comm. apply Z.div_mul. lia. }
          assert (LeB : qB <= Zpos mt / 2).
          { unfold qB. rewrite HEB.
            replace (-1074 - (-55 + -1073)) with 54 by lia.
            apply Z.le_trans with (2 ^ 53 * Zpos mt / 2 ^ 54).
            - apply Z.div_le_mono; [reflexivity|]. nia.
            - change (2 ^ 54) with (2 ^ 53 * 2).
              rewrite Z.div_mul_cancel_l by lia. lia. }
          pose proof (Z.div_mod (Zpos mt) 2 ltac:(lia)).
          pose proof (Z.mod_pos_bound (Zpos mt) 2 ltac:(lia)).
          change (2 ^ 53) with 9007199254740992 in *. lia. }
      clearbody qA qB EA EB.
      change (2 ^ 52) with 4503599627370496 in *.
      change (2 ^ 53) with 9007199254740992 in *.
      replace (mB =? 9007199254740992) with false
        by (symmetry; apply Z.eqb_neq; lia).
      split; [apply overflow_pair_nonneg; lia|].
      destruct (Z.eqb_spec mA 9007199254740992);
        apply overflow_pair_not_lt; lia.
Qed.

(** *** The two facts on doubles *)
Lemma Prim2SF_zero : Prim2SF 0%float = S754_zero false.
Proof. vm_compute. reflexivity. Qed.

Lemma nonneg_not_nan (X : spec_float) :
  nonneg_spec X = true -> is_nan_spec X = false.
Proof. destruct X as [[|]|[|]| |[|] ? ?]; simpl; intros; congruence. Qed.

Lemma float_nonneg (x : float) :
  PrimFloat.is_nan x = false -> PrimFloat.ltb x 0 = false ->
  nonneg_spec (Prim2SF x) = true.
Proof.
  rewrite <- Prim2SF_nan, ltb_spec, Prim2SF_zero.
  destruct (Prim2SF x) as [[|]|[|]| |[|] ? ?]; unfold SFltb, SFcompare; simpl;
    intros; congruence.
Qed.

(** [x <= x + y] for doubles [x, y >= 0], and the sum is a number. *)
Lemma float_add_nonneg (x y : float) :
  PrimFloat.is_nan x = false -> PrimFloat.ltb x 0 = false ->
  PrimFloat.is_nan y = false -> PrimFloat.ltb y 0 = false ->
  PrimFloat.is_nan (x + y) = false /\ PrimFloat.ltb (x + y) x = false.
Proof.
  intros Nx Lx Ny Ly.
  destruct (SFadd_nonneg (Prim2SF x) (Prim2SF y)) as [Hn Hl];
    try apply Prim2SF_valid; try (apply float_nonneg; assumption).
  rewrite <- add_spec in Hn, Hl. split.
  - rewrite <- Prim2SF_nan. apply nonneg_not_nan. exact Hn.
  - rewrite ltb_spec. exact Hl.
Qed.

(** [0.2 * t <= 0.5 * t] for a double [t > 0], and [0.2 * t] is a
    number. *)
Lemma float_fraction_mono (t : float) :
  PrimFloat.ltb 0 t = true ->
  PrimFloat.is_nan (0x1.999999999999ap-3 * t) = false /\
  PrimFloat.ltb (0.5 * t) (0x1.999999999999ap-3 * t) = false.
Proof.
  intros Ht. rewrite ltb_spec, Prim2SF_zero in Ht.
  destruct (SFmul_fractions (Prim2SF t)) as [Hn Hl];
    [apply Prim2SF_valid|exact Ht|].
  rewrite <- Prim2SF_fifth, <- mul_spec in Hn.
  rewrite <- Prim2SF_half, <- Prim2SF_fifth, <- !mul_spec in Hl. split.
  - rewrite <- Prim2SF_nan. apply nonneg_not_nan. exact Hn.
  - rewrite ltb_spec. exact Hl.
Qed.

(** [<] on doubles is an order away from NaN. *)
Lemma binary64_order : DoubleOrder float.
Proof.
  constructor.
  - reflexivity.
  - exact float_ltb_irrefl.
  - exact float_ltb_trans.
  - exact float_ltb_negtrans.
Qed.

(** Rounding to nearest keeps sums of non-negative doubles and the two
    fractions of a positive total in order. *)
Lemma binary64_charge_laws : ChargeLaws float.
Proof.
  constructor.
  - intros x y Hx Hy.
    apply andb_true_iff in Hx, Hy. destruct Hx as [Nx Lx], Hy as [Ny Ly].
    apply negb_true_iff in Nx, Lx, Ny, Ly.
    apply float_add_nonneg; assumption.
  - exact float_fraction_mono.
Qed.

End Binary64.

(** ** The kernel on doubles *)

Section OnDoubles.

Open Scope float_scope.

(** A single pulse (spec, section 8). *)
Example single_pulse :
  compute_summary_stats insertion_sort [10] [5]
  = Return [5; 5; 5; 10; 10; 10; 10; 10; 0].
Proof. vm_compute. reflexivity. Qed.

(** A pulse exactly 100 ns after the first is inside the 100 ns window. *)
Example window_boundary :
  compute_summary_stats insertion_sort [150; 0; 100] [4; 1; 2]
  = Return [7; 3; 7; 0; 150; 100; 150;
            0x1.c924924924925p+6; 0x1.9c1020f56ebbep+5].
Proof. vm_compute. reflexivity. Qed.

(** C1, as stated, fails with a negative charge: on times 0, 1, 2 with
    charges 3, -3, 1 the running charge is 3, 0, 1 and the threshold is
    0.2; the first pulse is the first whose running charge exceeds it,
    but the halving search looks at the middle (0), moves right and
    answers index 2, so [result[5]] is 2 and not 0; the same at 50%.

    It fails with a NaN time too: on times 5, NaN, 1 with charges 1, 0, 1
    no element is less than its predecessor, so the kernel leaves the
    pulses as they come and [result[5]] is 5, the time of its first
    pulse; in time order the pulse at 1 comes before the pulse at 5 and is
    the first whose running charge exceeds 0.4. *)
Lemma percentile_times_negative_charge :
  (let times := [0; 1; 2] in
   let charges := [3; -3; 1] in
   let ps := sorted_pulses insertion_sort times charges in
   times <> [] /\
   length times = length charges /\
   partial_sum (map charge ps) = [3; 0; 1] /\
   exists result,
     compute_summary_stats insertion_sort times charges = Return result /\
     result = [1; 1; 1; 0; 2; 2; 2; -1; 0] /\
     first_exceeding (partial_sum (map charge ps)) (mul c02 (element result 0)) = 0%nat /\
     upper_bound (partial_sum (map charge ps)) (mul c02 (element result 0)) = 2%nat /\
     element result 5 <> percentile_time ps (mul c02 (element result 0)) /\
     element result 6 <> percentile_time ps (mul c05 (element result 0))) /\
  (let times := [5; PrimFloat.nan; 1] in
   let charges := [1; 0; 1] in
   let in_time_order := [(1, 1); (5, 1); (PrimFloat.nan, 0)] in
   times <> [] /\
   length times = length charges /\
   Permutation (combine times charges) in_time_order /\
   is_sorted (map time in_time_order) = true /\
   partial_sum (map charge in_time_order) = [1; 2; 2] /\
   exists result,
     compute_summary_stats insertion_sort times charges = Return result /\
     element result 5 = 5 /\
     percentile_time in_time_order (mul c02 (element result 0)) = 1 /\
     element result 5
     <> percentile_time in_time_order (mul c02 (element result 0))).
Proof.
  cbv zeta. split.
  - split; [discriminate|]. split; [reflexivity|].
    split; [vm_compute; reflexivity|].
    eexists. split; [vm_compute; reflexivity|].
    split; [reflexivity|]. split; [vm_compute; reflexivity|].
    split; [vm_compute; reflexivity|].
    split; intros E; apply (f_equal (fun x => PrimFloat.ltb x 1)) in E;
      vm_compute in E; discriminate.
  - split; [discriminate|]. split; [reflexivity|]. split.
    { simpl. apply Permutation_trans with [(5, 1); (1, 1); (PrimFloat.nan, 0)];
        [apply perm_skip; apply perm_swap|apply perm_swap]. }
    split; [vm_compute; reflexivity|]. split; [vm_compute; reflexivity|].
    eexists. split; [vm_compute; reflexivity|].
    split; [vm_compute; reflexivity|]. split; [vm_compute; reflexivity|].
    intros E. apply (f_equal (fun x => PrimFloat.ltb x 2)) in E.
    vm_compute in E. discriminate.
Qed.

(** C2, as stated, fails with a NaN time: on times 1, 200, NaN, 3 with
    charges 1, 2, 4, 8 no element is less than its predecessor, so the
    kernel does not sort; the cutoff is 101 and the halving search, sent
    right by the NaN in the middle and by the 3 after it, answers 4: the
    pulse at 200 is counted and [result[1]] is 15.  The pulses at or
    before the cutoff are those at 1 and 3 (charge 9), with the NaN pulse
    when "at most" is read as "not above" (charge 13). *)
Lemma window_charges_nan_time :
  let times := [1; 200; PrimFloat.nan; 3] in
  let charges := [1; 2; 4; 8] in
  let ps := sorted_pulses insertion_sort times charges in
  times <> [] /\
  length times = length charges /\
  exists result,
    compute_summary_stats insertion_sort times charges = Return result /\
    element result 3 = 1 /\
    element result 1 = 15 /\
    PrimFloat.leb 200 (element result 3 + 100) = false /\
    accumulate
      (map charge
         (filter (fun p => PrimFloat.leb (time p) (element result 3 + 100)) ps))
      zero = 9 /\
    window_charge ps (add (element result 3) c100) = 13 /\
    element result 1 <> window_charge ps (add (element result 3) c100).
Proof.
  cbv zeta. split; [discriminate|]. split; [reflexivity|].
  eexists. split; [vm_compute; reflexivity|].
  repeat (split; [vm_compute; reflexivity|]).
  intros E. apply (f_equal (fun x => PrimFloat.ltb x 14)) in E.
  vm_compute in E. discriminate.
Qed.

(** C8, as stated, fails with a NaN time: the times 2, NaN, 1 differ two
    by two, and 1, 2, NaN is the same pulses sorted by time; in both
    arrangements no element is less than its predecessor, so the kernel
    sorts neither, and the first pulse time is 2 for one and 1 for the
    other. *)
Lemma sort_invariance_nan_time :
  let times := [2; PrimFloat.nan; 1] in
  let charges := [1; 2; 4] in
  let times_sorted := [1; 2; PrimFloat.nan] in
  let charges_sorted := [4; 1; 2] in
  length times = length charges /\
  length times_sorted = length charges_sorted /\
  ForallOrdPairs (fun a b => PrimFloat.eqb a b = false) times /\
  Permutation (combine times charges) (combine times_sorted charges_sorted) /\
  is_sorted times_sorted = true /\
  exists result result_sorted,
    compute_summary_stats insertion_sort times charges = Return result /\
    compute_summary_stats insertion_sort times_sorted charges_sorted
    = Return result_sorted /\
    element result 3 = 2 /\
    element result_sorted 3 = 1 /\
    result <> result_sorted.
Proof.
  cbv zeta. split; [reflexivity|]. split; [reflexivity|].
  split; [repeat constructor|].
  split.
  { simpl. apply Permutation_trans with [(2, 1); (1, 4); (PrimFloat.nan, 2)];
      [apply perm_skip; apply perm_swap|apply perm_swap]. }
  split; [vm_compute; reflexivity|].
  eexists. eexists. split; [vm_compute; reflexivity|].
  split; [vm_compute; reflexivity|].
  split; [reflexivity|]. split; [reflexivity|].
  intros E. apply (f_equal (fun r => PrimFloat.ltb (element r 3) 2)) in E.
  vm_compute in E. discriminate.
Qed.

(** C9, as stated, fails with a NaN time: on times 5, NaN, 1 with charges
    1, 0, 1 the total charge is 2 and no charge is negative; the kernel
    does not sort, the running charge 1, 1, 2 first exceeds 0.4 at index
    0 and 1.0 at index 2, so [result[5]] is 5 and [result[6]] is 1. *)
Lemma percentile_monotonicity_nan_time :
  let times := [5; PrimFloat.nan; 1] in
  let charges := [1; 0; 1] in
  length times = length charges /\
  forallb (fun q => PrimFloat.leb 0 q) charges = true /\
  exists result,
    compute_summary_stats insertion_sort times charges = Return result /\
    ltb zero (element result 0) = true /\
    element result 5 = 5 /\
    element result 6 = 1 /\
    leb (element result 5) (element result 6) = false.
Proof.
  cbv zeta. split; [reflexivity|]. split; [vm_compute; reflexivity|].
  eexists. split; [vm_compute; reflexivity|].
  repeat split; vm_compute; reflexivity.
Qed.

(** C10, as stated, fails with a NaN time: on times 2, NaN, 1 the kernel
    does not sort, so the first pulse time is 2 and the last is 1, and
    [result[5]], read at index 0, is 2: above the last pulse time. *)
Lemma time_outputs_nan_time :
  let times := [2; PrimFloat.nan; 1] in
  let charges := [1; 1; 1] in
  times <> [] /\
  length times = length charges /\
  exists result,
    compute_summary_stats insertion_sort times charges = Return result /\
    element result 3 = 2 /\
    element result 4 = 1 /\
    element result 5 = 2 /\
    leb (element result 3) (element result 4) = false /\
    leb (element result 5) (element result 4) = false.
Proof.
  cbv zeta. split; [discriminate|]. split; [reflexivity|].
  eexists. split; [vm_compute; reflexivity|].
  repeat split; vm_compute; reflexivity.
Qed.

(** C6: two mismatches of different sizes, 1 against 0 and 2 against 3,
    throw one and the same error: its message is fixed and names no
    size.  The kernel's own length check, by contrast, puts both lengths
    in its message. *)
Theorem batch_mismatch_diagnostic :
  compute_summary_stats_batch insertion_sort [[1]] []
  = Throw (invalid_argument
             "times_list and charges_list must have the same length") /\
  compute_summary_stats_batch insertion_sort [[1]; [2; 3]] [[1]; [2]; [4]]
  = Throw (invalid_argument
             "times_list and charges_list must have the same length") /\
  compute_summary_stats insertion_sort [2; 3] [2]
  = Throw (invalid_argument
             "times and charges must have the same length, got 2 and 1").
Proof. vm_compute. repeat split; reflexivity. Qed.

End OnDoubles.

(** ** The theorems at concrete inputs *)

Section Witnesses.

Open Scope float_scope.

Lemma kernel_length_mismatch_witness :
  [150; 0; 100] <> [] /\
  length [150; 0; 100] <> length [4; 1] /\
  compute_summary_stats insertion_sort [150; 0; 100] [4; 1]
  = Throw (invalid_argument
             "times and charges must have the same length, got 3 and 2").
Proof.
  split; [discriminate|]. split; [discriminate|].
  apply (kernel_length_mismatch insertion_sort [150; 0; 100] [4; 1]);
    discriminate.
Defined.

(** Times 500.1, 0.1, 100.1: the sums 0.1 + 100 and 0.1 + 500 round to
    100.1 and 500.1, so both cutoffs fall on a pulse. *)
Lemma window_charges_witness :
  [0x1.f41999999999ap+8; 0x1.999999999999ap-4; 0x1.9066666666666p+6] <> [] /\
  length [0x1.f41999999999ap+8; 0x1.999999999999ap-4; 0x1.9066666666666p+6]
  = length [4; 1; 2] /\
  no_nan [0x1.f41999999999ap+8; 0x1.999999999999ap-4; 0x1.9066666666666p+6] = true /\
  exists result,
    compute_summary_stats insertion_sort
      [0x1.f41999999999ap+8; 0x1.999999999999ap-4; 0x1.9066666666666p+6] [4; 1; 2]
    = Return result /\
    element result 1 = 3 /\
    element result 2 = 7 /\
    time_ordered
      (sorted_pulses insertion_sort
         [0x1.f41999999999ap+8; 0x1.999999999999ap-4; 0x1.9066666666666p+6] [4; 1; 2]) /\
    element result 1
    = window_charge
        (sorted_pulses insertion_sort
           [0x1.f41999999999ap+8; 0x1.999999999999ap-4; 0x1.9066666666666p+6] [4; 1; 2])
        (add (element result 3) c100) /\
    element result 2
    = window_charge
        (sorted_pulses insertion_sort
           [0x1.f41999999999ap+8; 0x1.999999999999ap-4; 0x1.9066666666666p+6] [4; 1; 2])
        (add (element result 3) c500).
Proof.
  split; [discriminate|]. split; [reflexivity|]. split; [reflexivity|].
  destruct (window_charges (order := binary64_order)
              insertion_sort insertion_sort_contract
              [0x1.f41999999999ap+8; 0x1.999999999999ap-4; 0x1.9066666666666p+6]
              [4; 1; 2])
    as [r [Hr [_ [Ho [H1 [H2 _]]]]]]; [discriminate|reflexivity|reflexivity|].
  exists r. split; [exact Hr|].
  split; [vm_compute in Hr; injection Hr as <-; reflexivity|].
  split; [vm_compute in Hr; injection Hr as <-; reflexivity|].
  repeat split; assumption.
Defined.

Lemma percentile_times_witness :
  [150; 0; 100] <> [] /\
  length [150; 0; 100] = length [4; 1; 2] /\
  no_nan [150; 0; 100] = true /\
  no_nan
    (partial_sum
       (map charge (sorted_pulses insertion_sort [150; 0; 100] [4; 1; 2])))
  = true /\
  is_sorted
    (partial_sum
       (map charge (sorted_pulses insertion_sort [150; 0; 100] [4; 1; 2])))
  = true /\
  exists result,
    compute_summary_stats insertion_sort [150; 0; 100] [4; 1; 2] = Return result /\
    time_ordered (sorted_pulses insertion_sort [150; 0; 100] [4; 1; 2]) /\
    element result 5
    = percentile_time (sorted_pulses insertion_sort [150; 0; 100] [4; 1; 2])
        (mul c02 (element result 0)) /\
    element result 6
    = percentile_time (sorted_pulses insertion_sort [150; 0; 100] [4; 1; 2])
        (mul c05 (element result 0)).
Proof.
  split; [discriminate|]. split; [reflexivity|]. split; [reflexivity|].
  split; [vm_compute; reflexivity|]. split; [vm_compute; reflexivity|].
  destruct (percentile_times (order := binary64_order)
              insertion_sort insertion_sort_contract
              [150; 0; 100] [4; 1; 2])
    as [r [Hr [_ [Ho [H5 H6]]]]];
    [discriminate|reflexivity|reflexivity
    |vm_compute; reflexivity|vm_compute; reflexivity|].
  exists r. repeat split; assumption.
Defined.

Lemma weighted_moments_witness :
  [150; 0; 100] <> [] /\
  length [150; 0; 100] = length [4; 1; 2] /\
  exists result,
    compute_summary_stats insertion_sort [150; 0; 100] [4; 1; 2] = Return result /\
    Permutation (combine [150; 0; 100] [4; 1; 2])
                (sorted_pulses insertion_sort [150; 0; 100] [4; 1; 2]) /\
    time_ordered (sorted_pulses insertion_sort [150; 0; 100] [4; 1; 2]) /\
    ltb zero (element result 0) = true /\
    element result 7
    = div (weighted_sum (sorted_pulses insertion_sort [150; 0; 100] [4; 1; 2]))
          (element result 0) /\
    element result 8
    = sqrt (div (weighted_square_sum
                   (sorted_pulses insertion_sort [150; 0; 100] [4; 1; 2])
                   (element result 7))
                (element result 0)).
Proof.
  split; [discriminate|]. split; [reflexivity|].
  destruct (weighted_moments (order := binary64_order)
              insertion_sort insertion_sort_contract
              [150; 0; 100] [4; 1; 2])
    as [r [Hr [Hord [_ [Hpos _]]]]]; [discriminate|reflexivity|].
  assert (Ht : ltb zero (element r 0) = true).
  { vm_compute in Hr. injection Hr as <-. reflexivity. }
  destruct (Hpos Ht) as [H7 H8].
  destruct (Hord eq_refl) as [Hp Ho].
  exists r. repeat split; assumption.
Defined.

Lemma time_outputs_in_range_witness :
  [150; 0; 100] <> [] /\
  length [150; 0; 100] = length [4; 1; 2] /\
  no_nan [150; 0; 100] = true /\
  exists result,
    compute_summary_stats insertion_sort [150; 0; 100] [4; 1; 2] = Return result /\
    In (element result 5) [150; 0; 100] /\
    In (element result 6) [150; 0; 100] /\
    leb (element result 3) (element result 5) = true /\
    leb (element result 5) (element result 4) = true.
Proof.
  split; [discriminate|]. split; [reflexivity|]. split; [reflexivity|].
  destruct (time_outputs_in_range (order := binary64_order)
              insertion_sort insertion_sort_contract
              [150; 0; 100] [4; 1; 2])
    as [r [Hr [_ [_ [H5 [H6 [L1 [L2 _]]]]]]]];
    [discriminate|reflexivity|reflexivity|].
  exists r. repeat split; assumption.
Defined.

Lemma percentile_monotonicity_witness :
  length [150; 0; 100]
  = length [0x1.999999999999ap-4; 0x1.999999999999ap-3; 0x1.3333333333333p-2] /\
  no_nan [150; 0; 100] = true /\
  non_negatives
    [0x1.999999999999ap-4; 0x1.999999999999ap-3; 0x1.3333333333333p-2]
  = true /\
  exists result,
    compute_summary_stats insertion_sort [150; 0; 100]
      [0x1.999999999999ap-4; 0x1.999999999999ap-3; 0x1.3333333333333p-2]
    = Return result /\
    ltb zero (element result 0) = true /\
    leb (element result 5) (element result 6) = true.
Proof.
  split; [reflexivity|]. split; [reflexivity|]. split; [reflexivity|].
  destruct (percentile_monotonicity
              (order := binary64_order) (charge_laws := binary64_charge_laws)
              insertion_sort insertion_sort_contract
              [150; 0; 100]
              [0x1.999999999999ap-4; 0x1.999999999999ap-3;
               0x1.3333333333333p-2])
    as [r [Hr Hm]]; [reflexivity|reflexivity|reflexivity|].
  assert (Ht : ltb zero (element r 0) = true).
  { vm_compute in Hr. injection Hr as <-. reflexivity. }
  exists r. repeat split; [exact Hr|exact Ht|exact (Hm Ht)].
Defined.

Lemma sort_invariance_witness :
  length [150; 0; 100] = length [4; 1; 2] /\
  length [0; 100; 150] = length [1; 2; 4] /\
  no_nan [150; 0; 100] = true /\
  unique_times [150; 0; 100] /\
  Permutation (combine [150; 0; 100] [4; 1; 2]) (combine [0; 100; 150] [1; 2; 4]) /\
  is_sorted [0; 100; 150] = true /\
  compute_summary_stats insertion_sort [150; 0; 100] [4; 1; 2]
  = compute_summary_stats insertion_sort [0; 100; 150] [1; 2; 4].
Proof.
  assert (Hu : unique_times [150; 0; 100]).
  { repeat constructor; (left; reflexivity) || (right; reflexivity). }
  assert (Hp : Permutation (combine [150; 0; 100] [4; 1; 2])
                           (combine [0; 100; 150] [1; 2; 4])).
  { simpl. apply Permutation_trans with [(0, 1); (150, 4); (100, 2)];
      [apply perm_swap|apply perm_skip; apply perm_swap]. }
  split; [reflexivity|]. split; [reflexivity|]. split; [reflexivity|].
  split; [exact Hu|]. split; [exact Hp|]. split; [reflexivity|].
  apply (sort_invariance (order := binary64_order)
           insertion_sort insertion_sort_contract);
    [reflexivity|reflexivity|reflexivity|exact Hu|exact Hp|reflexivity].
Defined.

Lemma batch_consistency_witness :
  length [[10]; [1; 0]] = length [[5]; [1; 1]] /\
  compute_summary_stats_batch insertion_sort [[10]; [1; 0]] [[5]; [1; 1]]
  = Return [[5; 5; 5; 10; 10; 10; 10; 10; 0];
            [2; 2; 2; 0; 1; 0; 1; 0.5; 0.5]] /\
  exists rows,
    compute_summary_stats_batch insertion_sort [[10]; [1; 0]] [[5]; [1; 1]]
    = Return rows /\
    length rows = 2%nat /\
    compute_summary_stats insertion_sort [1; 0] [1; 1] = Return (nth 1 rows []).
Proof.
  split; [reflexivity|]. split; [vm_compute; reflexivity|].
  destruct (batch_consistency insertion_sort [[10]; [1; 0]] [[5]; [1; 1]] eq_refl)
    as [Hok _].
  destruct Hok as [rows [Hrows [Hlen Hrow]]].
  - intros i Hi.
    destruct i as [|[|i]]; [eexists; reflexivity|eexists; reflexivity|].
    simpl in Hi. lia.
  - exists rows. repeat split; [exact Hrows|exact Hlen|].
    apply (Hrow 1%nat). simpl. lia.
Defined.

End Witnesses.

(** * Further properties of the kernel *)

Section PercentileEdges.

Context {double : Type} {ops : DoubleOps double}.
Variable std_sort : (nat -> nat -> bool) -> list nat -> list nat.

Lemma partial_sum_from_length (v : list double) :
  forall acc, length (partial_sum_from acc v) = length v.
Proof. induction v as [|x r IH]; intros acc; simpl; [|rewrite IH]; reflexivity. Qed.

Lemma partial_sum_length (v : list double) :
  length (partial_sum v) = length v.
Proof. destruct v; simpl; [|rewrite partial_sum_from_length]; reflexivity. Qed.

(** When no element exceeds [val] the halving search always moves right
    and ends past the last element. *)
Lemma upper_bound_loop_none (v : list double) (val : double) :
  (forall i, i < length v -> ltb val (subscript v i) = false) ->
  forall fuel first len,
    len <= fuel -> first + len = length v ->
    upper_bound_loop fuel v val first len = length v.
Proof.
  intros Hall. induction fuel as [|fuel IH]; intros first len Hf Hlen; simpl.
  - lia.
  - destruct (len =? 0) eqn:E; [apply Nat.eqb_eq in E; lia|].
    apply Nat.eqb_neq in E.
    assert (len / 2 < len) by (apply Nat.div_lt; lia).
    rewrite Hall by lia. apply IH; lia.
Qed.

(** When every element exceeds [val] it always moves left and ends on the
    first element. *)
Lemma upper_bound_loop_all (v : list double) (val : double) :
  (forall i, i < length v -> ltb val (subscript v i) = true) ->
  forall fuel first len,
    first + len <= length v ->
    upper_bound_loop fuel v val first len = first.
Proof.
  intros Hall. induction fuel as [|fuel IH]; intros first len Hlen; simpl.
  - reflexivity.
  - destruct (len =? 0) eqn:E; [reflexivity|].
    apply Nat.eqb_neq in E.
    assert (len / 2 < len) by (apply Nat.div_lt; lia).
    rewrite Hall by lia. apply IH; lia.
Qed.

Lemma Forall_subscript (P : double -> Prop) (v : list double) :
  Forall P v -> forall i, i < length v -> P (subscript v i).
Proof.
  intros HF i Hi. rewrite Forall_forall in HF. apply HF. apply nth_In. exact Hi.
Qed.

(** X4: the two edges of the percentile search.  When no running charge
    exceeds the threshold (every charge zero, say) the search runs past
    the end and the clamp makes the percentile time the last pulse time;
    when every running charge exceeds it the percentile time is the first
    pulse time. *)
Theorem percentile_edges (times charges : list double) :
  times <> [] ->
  length times = length charges ->
  exists result,
    compute_summary_stats std_sort times charges = Return result /\
    let running :=
      partial_sum (map charge (sorted_pulses std_sort times charges)) in
    let charge_20_percent := mul c02 (element result 0) in
    let charge_50_percent := mul c05 (element result 0) in
    (Forall (fun c => ltb charge_20_percent c = false) running ->
     element result 5 = element result 4) /\
    (Forall (fun c => ltb charge_50_percent c = false) running ->
     element result 6 = element result 4) /\
    (Forall (fun c => ltb charge_20_percent c = true) running ->
     element result 5 = element result 3) /\
    (Forall (fun c => ltb charge_50_percent c = true) running ->
     element result 6 = element result 3).
Proof.
  intros Hne Hlen. eexists. split; [apply compute_nonempty; assumption|].
  cbv zeta.
  rewrite (sorted_pulses_charges std_sort times charges Hlen).
  pose proof (sorted_arrays_same_length std_sort times charges Hlen) as Hsame.
  rewrite stats_total_charge, stats_first_pulse_time, stats_last_pulse_time,
    stats_charge_20_percent_time, stats_charge_50_percent_time, last_subscript.
  set (ts := fst (sorted_arrays std_sort times charges)) in *.
  set (cs := snd (sorted_arrays std_sort times charges)) in *.
  assert (Hcum : length (partial_sum cs) = length ts)
    by (rewrite partial_sum_length; symmetry; exact Hsame).
  assert (Hpast : forall val,
            Forall (fun c => ltb val c = false) (partial_sum cs) ->
            subscript ts (Nat.min (upper_bound (partial_sum cs) val) (length ts - 1))
            = subscript ts (length ts - 1)).
  { intros val HF. unfold upper_bound.
    rewrite (upper_bound_loop_none (partial_sum cs) val
               (Forall_subscript _ _ HF)) by lia.
    rewrite Hcum. f_equal. lia. }
  assert (Hfirst : forall val,
            Forall (fun c => ltb val c = true) (partial_sum cs) ->
            subscript ts (Nat.min (upper_bound (partial_sum cs) val) (length ts - 1))
            = subscript ts 0).
  { intros val HF. unfold upper_bound.
    rewrite (upper_bound_loop_all (partial_sum cs) val
               (Forall_subscript _ _ HF)) by lia.
    reflexivity. }
  repeat split; intros HF; (apply Hpast || apply Hfirst); exact HF.
Qed.

End PercentileEdges.

Section KernelBounds.

Context {double : Type} {ops : DoubleOps double} {nan : DoubleNaN double}
        {order : DoubleOrder double}.
Variable std_sort : (nat -> nat -> bool) -> list nat -> list nat.
Hypothesis std_sort_contract : sort_contract std_sort.

(** X2: when no time is a NaN, [result[3]] is a lower bound and
    [result[4]] an upper bound of every input time: they are the least and
    the greatest time. *)
Theorem pulse_time_bounds (times charges : list double) :
  times <> [] ->
  length times = length charges ->
  no_nan times = true ->
  exists result,
    compute_summary_stats std_sort times charges = Return result /\
    forall t, In t times ->
      leb (element result 3) t = true /\ leb t (element result 4) = true.
Proof.
  intros Hne Hlen Hn. eexists. split; [apply compute_nonempty; assumption|].
  intros t Ht.
  rewrite stats_first_pulse_time, stats_last_pulse_time, last_subscript.
  pose proof (sorted_times_permutation std_sort std_sort_contract
                times charges Hn Hlen) as Hperm.
  pose proof (sorted_times_non_decreasing std_sort std_sort_contract
                times charges Hn) as Hts.
  set (ts := fst (sorted_arrays std_sort times charges)) in *.
  apply (Permutation_in _ Hperm) in Ht.
  destruct (In_nth _ _ zero Ht) as [i [Hi <-]].
  fold (subscript ts i). unfold leb.
  rewrite !(non_decreasing_subscript ts Hts) by lia.
  split; reflexivity.
Qed.

Context {charge_laws : ChargeLaws double}.






End KernelBounds.

(** * Further properties of the batch driver *)

Section BatchTraversal.

Context {double : Type} {ops : DoubleOps double}.
Variable std_sort : (nat -> nat -> bool) -> list nat -> list nat.

#[local] Abbreviation on_pair :=
  (fun p : list double * list double =>
     compute_summary_stats std_sort (fst p) (snd p)).

Lemma traverse_app {A B : Type} (f : A -> outcome B) (l1 l2 : list A) :
  traverse f (l1 ++ l2)
  = (r1 <- traverse f l1 ;; r2 <- traverse f l2 ;; Return (r1 ++ r2)).
Proof.
  induction l1 as [|a l1 IH]; simpl.
  - destruct (traverse f l2); reflexivity.
  - destruct (f a) as [b|e]; simpl; [|reflexivity].
    rewrite IH. destruct (traverse f l1) as [r1|e]; simpl; [|reflexivity].
    destruct (traverse f l2); reflexivity.
Qed.


Lemma traverse_rows {A B : Type} (f : A -> outcome B) (l : list A) :
  forall bs, traverse f l = Return bs -> Forall2 (fun a b => f a = Return b) l bs.
Proof.
  induction l as [|a l IH]; simpl; intros bs Hbs.
  - injection Hbs as <-. constructor.
  - destruct (f a) as [b|e] eqn:E; [|discriminate Hbs]. simpl in Hbs.
    destruct (traverse f l) as [bs'|e]; [|discriminate Hbs].
    injection Hbs as <-. constructor; [exact E|]. apply IH. reflexivity.
Qed.

(** The index loop with [push_back], started after the sensors [pre_t],
    [pre_c] already done, is the traversal of the remaining pairs. *)
Lemma batch_loop_traverse (tl : list (list double)) :
  forall cl pre_t pre_c results,
    length pre_t = length pre_c ->
    length tl = length cl ->
    batch_loop std_sort (pre_t ++ tl) (pre_c ++ cl)
      (seq (length pre_t) (length tl)) results
    = (rows <- traverse on_pair (combine tl cl) ;; Return (results ++ rows)).
Proof.
  induction tl as [|t tl IH]; intros cl pre_t pre_c results Hpre Hlen.
  - simpl. rewrite app_nil_r. reflexivity.
  - destruct cl as [|c cl]; [discriminate Hlen|].
    simpl length. rewrite <- cons_seq.
    change (batch_loop std_sort (pre_t ++ t :: tl) (pre_c ++ c :: cl)
              (length pre_t :: seq (S (length pre_t)) (length tl)) results)
      with (row <- compute_summary_stats std_sort
                     (nth (length pre_t) (pre_t ++ t :: tl) [])
                     (nth (length pre_t) (pre_c ++ c :: cl) []) ;;
            batch_loop std_sort (pre_t ++ t :: tl) (pre_c ++ c :: cl)
              (seq (S (length pre_t)) (length tl)) (results ++ [row])).
    rewrite nth_middle. rewrite Hpre at 1. rewrite nth_middle.
    simpl combine. simpl traverse.
    destruct (compute_summary_stats std_sort t c) as [r|e]; simpl; [|reflexivity].
    replace (pre_t ++ t :: tl) with ((pre_t ++ [t]) ++ tl)
      by (rewrite <- app_assoc; reflexivity).
    replace (pre_c ++ c :: cl) with ((pre_c ++ [c]) ++ cl)
      by (rewrite <- app_assoc; reflexivity).
    replace (S (length pre_t)) with (length (pre_t ++ [t]))
      by (rewrite length_app; simpl; lia).
    rewrite IH by (rewrite ?length_app; simpl in *; lia).
    destruct (traverse on_pair (combine tl cl)) as [rows|e]; simpl;
      [|reflexivity].
    rewrite <- app_assoc. reflexivity.
Qed.

Lemma batch_traverse (times_list charges_list : list (list double)) :
  length times_list = length charges_list ->
  compute_summary_stats_batch std_sort times_list charges_list
  = traverse on_pair (combine times_list charges_list).
Proof.
  intros Hlen. unfold compute_summary_stats_batch.
  rewrite <- Hlen, Nat.eqb_refl. simpl negb. cbv iota.
  pose proof (batch_loop_traverse times_list charges_list [] [] []
                eq_refl Hlen) as L.
  simpl app in L. simpl length in L at 1. rewrite L.
  destruct (traverse on_pair (combine times_list charges_list)); reflexivity.
Qed.

(** X6: the driver is the outer length check followed by the kernel
    applied to the pairs [(times_list[i], charges_list[i])] from left to
    right, rows collected in that order, stopping at the first exception. *)
Theorem batch_is_traversal (times_list charges_list : list (list double)) :
  compute_summary_stats_batch std_sort times_list charges_list
  = if length times_list =? length charges_list
    then traverse
           (fun p => compute_summary_stats std_sort (fst p) (snd p))
           (combine times_list charges_list)
    else Throw (invalid_argument
                  "times_list and charges_list must have the same length").
Proof.
  destruct (length times_list =? length charges_list) eqn:E.
  - apply Nat.eqb_eq in E. apply batch_traverse. exact E.
  - unfold compute_summary_stats_batch. rewrite E. reflexivity.
Qed.

Lemma combine_app {A B : Type} (l1 l2 : list A) (m1 m2 : list B) :
  length l1 = length m1 ->
  combine (l1 ++ l2) (m1 ++ m2) = combine l1 m1 ++ combine l2 m2.
Proof.
  revert m1. induction l1 as [|a l1 IH]; intros [|b m1] Hl; simpl in *;
    try discriminate; [reflexivity|].
  rewrite IH by lia. reflexivity.
Qed.

(** X7: a batch of two groups of sensors is the batch of the first group
    followed by the batch of the second, their rows appended; an exception
    of the first group comes before one of the second. *)
Theorem batch_concatenation
    (times1 charges1 times2 charges2 : list (list double)) :
  length times1 = length charges1 ->
  length times2 = length charges2 ->
  compute_summary_stats_batch std_sort (times1 ++ times2) (charges1 ++ charges2)
  = (rows1 <- compute_summary_stats_batch std_sort times1 charges1 ;;
     rows2 <- compute_summary_stats_batch std_sort times2 charges2 ;;
     Return (rows1 ++ rows2)).
Proof.
  intros H1 H2.
  rewrite !batch_traverse by (rewrite ?length_app; lia).
  rewrite combine_app by exact H1. apply traverse_app.
Qed.

Lemma batch_rows_shape (times_list charges_list rows : list (list double)) :
  compute_summary_stats_batch std_sort times_list charges_list = Return rows ->
  length rows = length times_list /\ Forall (fun r => length r = 9) rows.
Proof.
  intros Hrows.
  destruct (Nat.eq_dec (length times_list) (length charges_list)) as [E|E].
  - rewrite batch_traverse in Hrows by exact E.
    apply traverse_rows in Hrows. split.
    + apply Forall2_length in Hrows. rewrite length_combine in Hrows. lia.
    + clear E. induction Hrows as [|p r ps rs Hr _ IH]; constructor;
        [|exact IH].
      apply (compute_summary_stats_length std_sort _ _ _ Hr).
  - unfold compute_summary_stats_batch in Hrows.
    apply Nat.eqb_neq in E. rewrite E in Hrows. discriminate Hrows.
Qed.


End BatchTraversal.

(** * The Python bindings *)

Section BindingsFacts.

Context {double : Type} {ops : DoubleOps double}.
Variable std_sort : (nat -> nat -> bool) -> list nat -> list nat.
Variable allocate : nat -> list double.
Hypothesis allocate_length : forall n, length (allocate n) = n.

Lemma store_middle {A : Type} (l1 l2 : list A) (y x : A) :
  store (l1 ++ y :: l2) (length l1) x = l1 ++ x :: l2.
Proof. induction l1 as [|a l1 IH]; simpl; [|rewrite IH]; reflexivity. Qed.

(** A loop [for (j = 0; j < n; ++j) ptr[o + j] = src[j]] overwrites the
    [n] slots from offset [o] with [src] and touches nothing else. *)
Lemma store_loop (src : list double) :
  forall (o : nat) (done pre mid post : list double),
    o = length pre ->
    length mid = length src ->
    fold_left (fun ptr j => store ptr (o + j) (subscript (done ++ src) j))
      (seq (length done) (length src)) (pre ++ done ++ mid ++ post)
    = pre ++ done ++ src ++ post.
Proof.
  induction src as [|x src IH]; intros o done pre mid post Ho Hmid.
  - destruct mid; [reflexivity|discriminate Hmid].
  - destruct mid as [|y mid]; [discriminate Hmid|].
    simpl length. rewrite <- cons_seq. simpl fold_left.
    replace (subscript (done ++ x :: src) (length done)) with x
      by (unfold subscript; rewrite nth_middle; reflexivity).
    replace (pre ++ done ++ y :: mid ++ post)
      with ((pre ++ done) ++ y :: mid ++ post)
      by (rewrite <- app_assoc; reflexivity).
    replace (o + length done) with (length (pre ++ done))
      by (rewrite length_app; lia).
    rewrite store_middle.
    replace ((pre ++ done) ++ x :: mid ++ post)
      with (pre ++ (done ++ [x]) ++ mid ++ post)
      by (rewrite <- !app_assoc; reflexivity).
    replace (S (length done)) with (length (done ++ [x]))
      by (rewrite length_app; simpl; lia).
    replace (done ++ x :: src) with ((done ++ [x]) ++ src)
      by (rewrite <- app_assoc; reflexivity).
    rewrite IH by (simpl in Hmid; lia).
    rewrite <- !app_assoc. reflexivity.
Qed.

Lemma fold_left_cons {A B : Type} (f : A -> B -> A) (b : B) (l : list B) (a : A) :
  fold_left f (b :: l) a = fold_left f l (f a b).
Proof. reflexivity. Qed.

Lemma push_back_loop {A B : Type} (g : A -> B) (l : list A) :
  forall acc, fold_left (fun acc item => acc ++ [g item]) l acc = acc ++ map g l.
Proof.
  induction l as [|a l IH]; intros acc; simpl; [rewrite app_nil_r; reflexivity|].
  rewrite IH, <- app_assoc. reflexivity.
Qed.

Lemma concat_rows_length (rows : list (list double)) :
  Forall (fun r => length r = 9) rows -> length (concat rows) = length rows * 9.
Proof.
  induction 1 as [|r rows Hr _ IH]; simpl; [reflexivity|].
  rewrite length_app, IH, Hr. reflexivity.
Qed.

(** The nested loop of the batch wrapper writes the rows one after the
    other. *)
Lemma store_rows (rows : list (list double)) :
  forall (done : list (list double)) (rest : list double),
    Forall (fun r => length r = 9) done ->
    Forall (fun r => length r = 9) rows ->
    length rest = length rows * 9 ->
    fold_left
      (fun ptr i =>
         fold_left
           (fun ptr j =>
              store ptr (i * 9 + j) (subscript (nth i (done ++ rows) []) j))
           (seq 0 9) ptr)
      (seq (length done) (length rows)) (concat done ++ rest)
    = concat done ++ concat rows.
Proof.
  induction rows as [|r rows IH]; intros done rest Hdone Hrows Hrest.
  - destruct rest; [reflexivity|discriminate Hrest].
  - inversion Hrows as [|? ? Hr Hrows']; subst.
    assert (Hsplit : exists mid post,
               rest = mid ++ post /\ length mid = 9 /\
               length post = length rows * 9).
    { exists (firstn 9 rest), (skipn 9 rest).
      rewrite firstn_skipn, length_firstn, length_skipn.
      simpl in Hrest. repeat split; lia. }
    destruct Hsplit as [mid [post [-> [Hmid Hpost]]]].
    change (length (r :: rows)) with (S (length rows)).
    rewrite <- (cons_seq (length rows) (length done)), fold_left_cons.
    cbv beta. rewrite nth_middle.
    pose proof (store_loop r (length done * 9) [] (concat done) mid post
                  (eq_sym (concat_rows_length done Hdone))) as L.
    rewrite Hr in L. specialize (L Hmid). cbn [app length] in L.
    rewrite L.
    replace (concat done ++ r ++ post) with (concat (done ++ [r]) ++ post)
      by (rewrite concat_app; simpl; rewrite app_nil_r, <- app_assoc;
          reflexivity).
    replace (S (length done)) with (length (done ++ [r]))
      by (rewrite length_app; simpl; lia).
    replace (done ++ r :: rows) with ((done ++ [r]) ++ rows)
      by (rewrite <- app_assoc; reflexivity).
    rewrite IH.
    + rewrite concat_app. simpl. rewrite app_nil_r, <- app_assoc. reflexivity.
    + apply Forall_app. split; [exact Hdone|]. constructor; [exact Hr|constructor].
    + exact Hrows'.
    + exact Hpost.
Qed.

Lemma concat_rows_subscript (rows : list (list double)) :
  Forall (fun r => length r = 9) rows ->
  forall i j, i < length rows -> j < 9 ->
    subscript (concat rows) (i * 9 + j) = subscript (nth i rows []) j.
Proof.
  unfold subscript.
  induction 1 as [|r rows Hr _ IH]; intros i j Hi Hj; simpl in Hi; [lia|].
  simpl concat. destruct i as [|i].
  - simpl. apply app_nth1. lia.
  - rewrite app_nth2 by (rewrite Hr; lia).
    rewrite Hr. replace (S i * 9 + j - 9) with (i * 9 + j) by lia.
    apply IH; lia.
Qed.

(** X9: the single-sensor wrapper returns a one-dimensional array of nine
    doubles holding the kernel's result on the two flattened inputs, with
    nothing left of the fresh buffer's contents; a kernel exception passes
    through. *)
Theorem py_single_result (times charges : ndarray double) :
  py_compute_summary_stats std_sort allocate times charges
  = (result <- compute_summary_stats std_sort
                 (numpy_to_vector times) (numpy_to_vector charges) ;;
     Return (Build_ndarray [9] result)).
Proof.
  unfold py_compute_summary_stats.
  destruct (compute_summary_stats std_sort (numpy_to_vector times)
              (numpy_to_vector charges)) as [result|e] eqn:E; [|reflexivity].
  simpl bind. f_equal. f_equal.
  pose proof (compute_summary_stats_length std_sort _ _ _ E) as H9.
  pose proof (store_loop result 0 [] [] (allocate 9) [] eq_refl) as L.
  rewrite H9, allocate_length in L. specialize (L eq_refl).
  simpl app in L. simpl length in L. rewrite !app_nil_r in L. exact L.
Qed.

(** X10: the batch wrapper returns an array of shape [(N, 9)] whose buffer
    is the rows of the driver one after the other, so that slot
    [i * 9 + j] holds [results[i][j]], with nothing left of the fresh
    buffer's contents; an exception of the driver passes through. *)
Theorem py_batch_layout (times_list charges_list : list (ndarray double)) :
  match compute_summary_stats_batch std_sort
          (map numpy_to_vector times_list) (map numpy_to_vector charges_list)
  with
  | Throw e =>
      py_compute_summary_stats_batch std_sort allocate times_list charges_list
      = Throw e
  | Return rows =>
      py_compute_summary_stats_batch std_sort allocate times_list charges_list
      = Return (Build_ndarray [length rows; 9] (concat rows)) /\
      length (concat rows) = length rows * 9 /\
      forall i j, i < length rows -> j < 9 ->
        subscript (concat rows) (i * 9 + j) = subscript (nth i rows []) j
  end.
Proof.
  unfold py_compute_summary_stats_batch.
  rewrite !push_back_loop. simpl app.
  destruct (compute_summary_stats_batch std_sort
              (map numpy_to_vector times_list)
              (map numpy_to_vector charges_list)) as [rows|e] eqn:E;
    [|reflexivity].
  assert (H9 : Forall (fun r => length r = 9) rows)
    by (apply (batch_rows_shape std_sort _ _ _ E)).
  split; [|split].
  - simpl bind. f_equal. f_equal.
    pose proof (store_rows rows [] (allocate (length rows * 9))
                  (Forall_nil _) H9 (allocate_length _)) as L.
    simpl in L. exact L.
  - apply concat_rows_length. exact H9.
  - apply concat_rows_subscript. exact H9.
Qed.

End BindingsFacts.

(** * The further theorems at concrete inputs *)

Section MoreWitnesses.

Open Scope float_scope.

Lemma pulse_time_bounds_witness :
  [150; 0; 100] <> [] /\
  length [150; 0; 100] = length [4; 1; 2] /\
  no_nan [150; 0; 100] = true /\
  exists result,
    compute_summary_stats insertion_sort [150; 0; 100] [4; 1; 2] = Return result /\
    leb (element result 3) 100 = true /\ leb 100 (element result 4) = true.
Proof.
  split; [discriminate|]. split; [reflexivity|]. split; [reflexivity|].
  destruct (pulse_time_bounds (order := binary64_order)
              insertion_sort insertion_sort_contract
              [150; 0; 100] [4; 1; 2])
    as [r [Hr Hb]]; [discriminate|reflexivity|reflexivity|].
  exists r. split; [exact Hr|]. apply Hb. right. right. left. reflexivity.
Defined.


Lemma percentile_edges_witness :
  [1; 2; 3] <> [] /\
  length [1; 2; 3] = length [0; 0; 0] /\
  exists result,
    compute_summary_stats insertion_sort [1; 2; 3] [0; 0; 0] = Return result /\
    element result 4 = 3 /\
    element result 5 = element result 4 /\
    element result 6 = element result 4.
Proof.
  split; [discriminate|]. split; [reflexivity|].
  destruct (percentile_edges insertion_sort [1; 2; 3] [0; 0; 0])
    as [r [Hr [H20 [H50 _]]]]; [discriminate|reflexivity|].
  exists r. split; [exact Hr|].
  assert (Er : r = [0; 0; 0; 1; 3; 3; 3; 0; 0]).
  { vm_compute in Hr. injection Hr as <-. reflexivity. }
  split; [rewrite Er; reflexivity|].
  split; [apply H20|apply H50]; rewrite Er; vm_compute;
    repeat constructor.
Defined.

Lemma batch_concatenation_witness :
  length [[10]] = length [[5]] /\
  length [[1; 0]; [7]] = length [[1; 1]; []] /\
  compute_summary_stats_batch insertion_sort
    ([[10]] ++ [[1; 0]; [7]]) ([[5]] ++ [[1; 1]; []])
  = (rows1 <- compute_summary_stats_batch insertion_sort [[10]] [[5]] ;;
     rows2 <- compute_summary_stats_batch insertion_sort [[1; 0]; [7]] [[1; 1]; []] ;;
     Return (rows1 ++ rows2)).
Proof.
  split; [reflexivity|]. split; [reflexivity|].
  apply (batch_concatenation insertion_sort
           [[10]] [[5]] [[1; 0]; [7]] [[1; 1]; []]); reflexivity.
Defined.

Lemma py_single_result_witness :
  (forall n, length (repeat 7 n) = n) /\
  py_compute_summary_stats insertion_sort (fun n => repeat 7 n)
    (Build_ndarray [1%nat] [10]) (Build_ndarray [1%nat] [5])
  = Return (Build_ndarray [9%nat] [5; 5; 5; 10; 10; 10; 10; 10; 0]).
Proof.
  split; [intros n; apply repeat_length|].
  rewrite (py_single_result insertion_sort (fun n => repeat 7 n)
             (fun n => repeat_length 7 n)).
  vm_compute. reflexivity.
Defined.

Lemma py_batch_layout_witness :
  (forall n, length (repeat 7 n) = n) /\
  py_compute_summary_stats_batch insertion_sort (fun n => repeat 7 n)
    [Build_ndarray [1%nat] [10]; Build_ndarray [2%nat] [1; 0]]
    [Build_ndarray [1%nat] [5]; Build_ndarray [2%nat] [1; 1]]
  = Return (Build_ndarray [2%nat; 9%nat]
              [5; 5; 5; 10; 10; 10; 10; 10; 0;
               2; 2; 2; 0; 1; 0; 1; 0.5; 0.5]).
Proof.
  split; [intros n; apply repeat_length|].
  pose proof (py_batch_layout insertion_sort (fun n => repeat 7 n)
                (fun n => repeat_length 7 n)
                [Build_ndarray [1%nat] [10]; Build_ndarray [2%nat] [1; 0]]
                [Build_ndarray [1%nat] [5]; Build_ndarray [2%nat] [1; 1]]) as L.
  vm_compute in L. destruct L as [L _]. vm_compute. exact L.
Defined.

End MoreWitnesses.
